(** * NiftyWatch screener: indicator engine, signal rule and aggregation

    A shallow embedding of [src/screener.py] ([calculate_rsi],
    [fetch_stock_bundle], [run_screener]) and the properties of the
    written specification that concern them, followed by the ticker
    universe ([fetch_nifty50_cached], [refresh_nifty50_csv], the refresh
    button), the plot names of the command line and the signal filter of
    the dashboard, with further properties read off the code.

    Numbers.  The program computes on IEEE-754 doubles through pandas.
    The embedding keeps the special values the program's behaviour hinges
    on (NaN, the two infinities, the two zeros) and takes the finite
    values as exact rationals: rounding, overflow and underflow of the
    binary format are not modelled.

    pandas.  [Series.diff], [Series.where], [Series.rolling(w).mean()] and
    element-wise arithmetic and comparison are library code; they are
    modelled from their documented behaviour: [diff] puts NaN in the first
    position, [where] keeps an entry where the condition holds and puts
    the replacement elsewhere, [rolling(w).mean()] needs [w] valid
    observations (min_periods = w) and treats infinities as missing,
    comparisons with NaN are false, division by zero follows IEEE. *)

From Stdlib Require Import QArith Qround Qminmax Lia Lqa ZArith.
From stdpp Require Import base option list strings gmap.

Local Open Scope Z_scope.
Local Open Scope nat_scope.

(* ===================================================================== *)
(** ** Floating-point values *)
(* ===================================================================== *)

(** [Fin q] with [q == 0] is the positive zero; [NegZero] is [-0.0]. *)
Inductive float : Type :=
| NaN
| Inf (neg : bool)
| NegZero
| Fin (q : Q).

Definition Qlt_bool (x y : Q) : bool := negb (Qle_bool y x).

(** Finite results are kept in lowest terms. *)
Definition fin (q : Q) : float := Fin (Qred q).

Definition zero (neg : bool) : float := if neg then NegZero else Fin 0.

Definition is_finite (x : float) : bool :=
  match x with
  | NegZero | Fin _ => true
  | NaN | Inf _ => false
  end.

Definition isnan (x : float) : bool :=
  match x with NaN => true | _ => false end.

(** Value of a finite float (0 for the others). *)
Definition fval (x : float) : Q :=
  match x with
  | Fin q => q
  | _ => 0%Q
  end.

Definition fsign (x : float) : bool :=
  match x with
  | NaN => false
  | Inf s => s
  | NegZero => true
  | Fin q => Qlt_bool q 0
  end.

Definition fis_zero (x : float) : bool :=
  match x with
  | NegZero => true
  | Fin q => Qeq_bool q 0
  | _ => false
  end.

Definition fneg (x : float) : float :=
  match x with
  | NaN => NaN
  | Inf s => Inf (negb s)
  | NegZero => Fin 0
  | Fin q => if Qeq_bool q 0 then NegZero else fin (- q)
  end.

Definition fadd (x y : float) : float :=
  match x, y with
  | NaN, _ | _, NaN => NaN
  | Inf a, Inf b => if Bool.eqb a b then Inf a else NaN
  | Inf a, _ => Inf a
  | _, Inf b => Inf b
  | NegZero, NegZero => NegZero
  | NegZero, Fin q => fin q
  | Fin p, NegZero => fin p
  | Fin p, Fin q => fin (p + q)
  end.

Definition fsub (x y : float) : float := fadd x (fneg y).

Definition fmul (x y : float) : float :=
  match x, y with
  | NaN, _ | _, NaN => NaN
  | Inf a, Inf b => Inf (xorb a b)
  | Inf a, _ => if fis_zero y then NaN else Inf (xorb a (fsign y))
  | _, Inf b => if fis_zero x then NaN else Inf (xorb (fsign x) b)
  | _, _ =>
      let p := (fval x * fval y)%Q in
      if Qeq_bool p 0 then zero (xorb (fsign x) (fsign y)) else fin p
  end.

Definition fdiv (x y : float) : float :=
  match x, y with
  | NaN, _ | _, NaN => NaN
  | Inf _, Inf _ => NaN
  | Inf a, _ => Inf (xorb a (fsign y))
  | _, Inf b => zero (xorb (fsign x) b)
  | _, _ =>
      if fis_zero y then
        if fis_zero x then NaN else Inf (xorb (fsign x) (fsign y))
      else
        let q := (fval x / fval y)%Q in
        if Qeq_bool q 0 then zero (xorb (fsign x) (fsign y)) else fin q
  end.

Definition flt (x y : float) : bool :=
  match x, y with
  | NaN, _ | _, NaN => false
  | Inf a, Inf b => a && negb b
  | Inf a, _ => a
  | _, Inf b => negb b
  | _, _ => Qlt_bool (fval x) (fval y)
  end.

Definition fle (x y : float) : bool :=
  match x, y with
  | NaN, _ | _, NaN => false
  | Inf a, Inf b => a || negb b
  | Inf a, _ => a
  | _, Inf b => negb b
  | _, _ => Qle_bool (fval x) (fval y)
  end.

Definition fgt (x y : float) : bool := flt y x.
Definition fge (x y : float) : bool := fle y x.

(** Python's [round(x, 2)]: to the nearest multiple of 1/100, ties to the
    even one; NaN and the infinities are returned unchanged. *)
Definition round_half_even (q : Q) : Z :=
  let f := Qfloor q in
  match (q - inject_Z f ?= 1 # 2)%Q with
  | Lt => f
  | Gt => (f + 1)%Z
  | Eq => if Z.even f then f else (f + 1)%Z
  end.

Definition round2 (x : float) : float :=
  match x with
  | Fin q =>
      let z := round_half_even (q * 100) in
      if (z =? 0)%Z then zero (Qlt_bool q 0) else fin (inject_Z z / 100)
  | other => other
  end.

(** Numeric literals of the program. *)
Definition f0 : float := Fin 0.
Definition f1 : float := Fin 1.
Definition f1_5 : float := Fin (3 # 2).
Definition f30 : float := Fin 30.
Definition f70 : float := Fin 70.
Definition f100 : float := Fin 100.
Definition of_nat (n : nat) : float := Fin (inject_Z (Z.of_nat n)).

(* ===================================================================== *)
(** ** pandas Series operations used by the program *)
(* ===================================================================== *)

Abbreviation Series := (list float).

(** [series.diff()] *)
Definition diff (s : Series) : Series :=
  match s with
  | [] => []
  | _ :: tl => NaN :: zip_with (fun prev cur => fsub cur prev) s tl
  end.

(** [series.where(cond, other)] with the condition computed entry-wise. *)
Definition where_ (cond : float -> bool) (other : float) (s : Series) : Series :=
  fmap (fun d => if cond d then d else other) s.

Definition fsum (l : list float) : float := foldl fadd f0 l.

(** The [w] entries ending at position [t]. *)
Definition window (w t : nat) (s : Series) : list float :=
  take w (drop (S t - w) s).

(** [series.rolling(w).mean()] *)
Definition rolling_mean (w : nat) (s : Series) : Series :=
  imap (fun t _ =>
          if decide (S t < w) then NaN
          else if forallb is_finite (window w t s)
               then fdiv (fsum (window w t s)) (of_nat w)
               else NaN) s.

(* ===================================================================== *)
(** ** [calculate_rsi] *)
(* ===================================================================== *)

Definition rsi_gain (w : nat) (series : Series) : Series :=
  rolling_mean w (where_ (fun d => fgt d f0) f0 (diff series)).

Definition rsi_loss (w : nat) (series : Series) : Series :=
  fmap fneg (rolling_mean w (where_ (fun d => flt d f0) f0 (diff series))).

Definition rsi_of_rs (rs : float) : float :=
  fsub f100 (fdiv f100 (fadd f1 rs)).

Definition calculate_rsi_window (w : nat) (series : Series) : Series :=
  let gain := rsi_gain w series in
  let loss := rsi_loss w series in
  let rs := zip_with fdiv gain loss in
  fmap rsi_of_rs rs.

Definition calculate_rsi (series : Series) : Series :=
  calculate_rsi_window 14 series.

(* ===================================================================== *)
(** ** Data fetched per ticker *)
(* ===================================================================== *)

(** [stock.info], restricted to the two fields the screener reads with
    [info.get]: [None] when the key is missing or its value is [None]. *)
Record Info : Type := {
  trailingPE : option float;
  returnOnEquity : option float
}.

(** One row of [stock.history(period="6mo")]: the columns the screener
    reads. *)
Record Bar : Type := {
  Close : float;
  Volume : float
}.

Abbreviation History := (list Bar).

(** Outcome of the two upstream requests of [fetch_stock_bundle]. *)
Inductive FetchResult : Type :=
| FetchRaises
| Bundle (info : Info) (hist : History).

Definition Upstream : Type := string -> FetchResult.

(** Observable effects of a screening pass, in program order. *)
Inductive Event : Type :=
| EvUpstream (ticker : string)
| EvSleep
| EvSaveChart (ticker : string)
| EvPrintError (ticker : string)
| EvExport (file : string).

(** [fetch_stock_bundle] under [st.cache_data]: a cached value is returned
    (as a fresh copy) without an upstream request; otherwise the request is
    made and its value stored; a raised exception is not stored. *)
Definition fetch_stock_bundle (up : Upstream) (ticker : string)
    (c : gmap string (Info * History))
  : FetchResult * gmap string (Info * History) * list Event :=
  match c !! ticker with
  | Some (info, hist) => (Bundle info hist, c, [])
  | None =>
      match up ticker with
      | Bundle info hist =>
          (Bundle info hist, <[ticker := (info, hist)]> c, [EvUpstream ticker])
      | FetchRaises => (FetchRaises, c, [EvUpstream ticker])
      end
  end.

(* ===================================================================== *)
(** ** [run_screener] *)
(* ===================================================================== *)

(** A row of [data] after the indicator columns have been added. *)
Record IndicatorBar : Type := {
  ib_Close : float;
  ib_Volume : float;
  ib_RSI : float;
  ib_SMA20 : float;
  ib_Volume_Spike : bool
}.

Definition volume_spike (volume : Series) : list bool :=
  let volume_mean := rolling_mean 20 volume in
  zip_with (fun v m => fgt v (fmul f1_5 m)) volume volume_mean.

Definition add_indicators (data : History) : list IndicatorBar :=
  let close := fmap Close data in
  let rsi := calculate_rsi close in
  let sma20 := rolling_mean 20 close in
  let spike := volume_spike (fmap Volume data) in
  zip_with (fun b '(r, s, k) =>
              {| ib_Close := Close b; ib_Volume := Volume b;
                 ib_RSI := r; ib_SMA20 := s; ib_Volume_Spike := k |})
           data (zip (zip rsi sma20) spike).

(** Lines 64-68. *)
Definition signal_of (rsi close sma20 : float) : string :=
  if flt rsi f30 && fgt close sma20 then "Buy"
  else if fgt rsi f70 && flt close sma20 then "Sell"
  else "Hold".

(** An entry of [summary_data]. *)
Record Row : Type := {
  Ticker : string;
  PE_Ratio : float;
  ROE_pct : float;
  RSI : float;
  Volume_Spike_Today : string;
  Signal : string
}.

Record State : Type := {
  cache : gmap string (Info * History);
  summary_data : list Row;
  trace : list Event
}.

Definition emit (evs : list Event) (c : gmap string (Info * History))
    (st : State) : State :=
  {| cache := c; summary_data := summary_data st; trace := trace st ++ evs |}.

(** The row built from the fundamentals and the last bar (lines 54, 64-68
    and 79-86). *)
Definition make_row (ticker : string) (pe roe : float) (last_row : IndicatorBar) : Row :=
  let roe_percent := round2 (fmul roe f100) in
  {| Ticker := ticker;
     PE_Ratio := round2 pe;
     ROE_pct := roe_percent;
     RSI := round2 (ib_RSI last_row);
     Volume_Spike_Today := if ib_Volume_Spike last_row then "Yes" else "No";
     Signal := signal_of (ib_RSI last_row) (ib_Close last_row) (ib_SMA20 last_row) |}.

(** One iteration of the [for ticker in selected_tickers] loop. *)
Definition screen_ticker (up : Upstream) (plot_tickers : list string)
    (st : State) (ticker : string) : State :=
  match fetch_stock_bundle up ticker (cache st) with
  | (FetchRaises, c, evs) => emit (evs ++ [EvPrintError ticker]) c st
  | (Bundle info data, c, evs) =>
      match trailingPE info, returnOnEquity info, data with
      | Some pe, Some roe, _ :: _ =>
          match last (add_indicators data) with
          | Some last_row =>
              let chart :=
                if bool_decide (ticker ∈ plot_tickers)
                then [EvSaveChart ticker] else [] in
              {| cache := c;
                 summary_data :=
                   summary_data st ++ [make_row ticker pe roe last_row];
                 trace := trace st ++ evs ++ [EvSleep] ++ chart |}
          | None => emit (evs ++ [EvSleep; EvPrintError ticker]) c st
          end
      | _, _, _ => emit evs c st
      end
  end.

Definition passes_filters (max_pe_filter min_roe_filter : float) (r : Row) : bool :=
  fle (PE_Ratio r) max_pe_filter && fge (ROE_pct r) min_roe_filter.

Definition init_state (c : gmap string (Info * History)) : State :=
  {| cache := c; summary_data := []; trace := [] |}.

(** [run_screener]: the two returned frames and the final state.  Every
    row carries both filter columns, so the column check of lines 99-101
    changes nothing. *)
Definition run_screener (up : Upstream) (c : gmap string (Info * History))
    (selected_tickers plot_tickers : list string)
    (max_pe_filter min_roe_filter : float)
  : list Row * list Row * State :=
  let st := foldl (screen_ticker up plot_tickers) (init_state c) selected_tickers in
  let result_df := summary_data st in
  match result_df with
  | [] => (result_df, result_df, st)
  | _ :: _ =>
      let filtered_df :=
        List.filter (passes_filters max_pe_filter min_roe_filter) result_df in
      (result_df, filtered_df,
       emit [EvExport "exports/all_results.xlsx";
             EvExport "exports/filtered_results.xlsx"] (cache st) st)
  end.

Definition fullTable (r : list Row * list Row * State) : list Row := r.1.1.
Definition filteredTable (r : list Row * list Row * State) : list Row := r.1.2.
Definition final_state (r : list Row * list Row * State) : State := r.2.

(** Default filters of the signature. *)
Definition default_max_pe : float := Fin 30.
Definition default_min_roe : float := Fin 15.

(* ===================================================================== *)
(** ** Definitions used to state the properties *)
(* ===================================================================== *)

(** What [fetch_stock_bundle] hands to the loop body for a ticker: the
    cached bundle when there is one, the upstream answer otherwise. *)
Definition fetched (up : Upstream) (c : gmap string (Info * History))
    (ticker : string) : FetchResult :=
  match c !! ticker with
  | Some (info, hist) => Bundle info hist
  | None => up ticker
  end.

(** The cache holds only what the upstream source answers. *)
Definition cache_consistent (up : Upstream) (c : gmap string (Info * History)) : Prop :=
  ∀ ticker info hist, c !! ticker = Some (info, hist) → up ticker = Bundle info hist.

(** The row a ticker contributes, as a function of what was fetched for
    it; [None] when it contributes none. *)
Definition row_of (ticker : string) (r : FetchResult) : option Row :=
  match r with
  | FetchRaises => None
  | Bundle info data =>
      match trailingPE info, returnOnEquity info, last (add_indicators data) with
      | Some pe, Some roe, Some last_row => Some (make_row ticker pe roe last_row)
      | _, _, _ => None
      end
  end.

(** A float stands for an exact value, or for "undefined". *)
Definition represents (x : float) (o : option Q) : Prop :=
  match o with
  | None => x = NaN
  | Some q => is_finite x = true ∧ (fval x == q)%Q
  end.

Definition qsum (l : list Q) : Q := foldr Qplus 0%Q l.

(** Trailing simple moving average of [f] over the [w] positions ending
    at [t]. *)
Definition trailing_avg (f : nat → Q) (w t : nat) : Q :=
  (qsum (fmap f (seq (S t - w) w)) / inject_Z (Z.of_nat w))%Q.

(** The RSI of the specification, from the two averages:
    100 - 100/(1 + avgGain/avgLoss); 100 when avgLoss = 0 < avgGain;
    undefined when both are 0. *)
Definition rsi_formula (avg_gain avg_loss : Q) : option Q :=
  if Qeq_bool avg_loss 0 then
    if Qeq_bool avg_gain 0 then None else Some 100%Q
  else Some (100 - 100 / (1 + avg_gain / avg_loss))%Q.

(** Section 4.1 of the specification, in its words:
    delta = close[t] - close[t-1], gain = max(delta, 0),
    loss = max(-delta, 0). *)
Definition spec_delta (close : list Q) (t : nat) : Q :=
  (nth t close 0 - nth (t - 1) close 0)%Q.

Definition spec_gain (close : list Q) (t : nat) : Q :=
  Qmax (spec_delta close t) 0.

Definition spec_loss (close : list Q) (t : nat) : Q :=
  Qmax (- spec_delta close t) 0.


(** The deltas as the program feeds them to the rolling mean: the first
    bar, which has no delta, enters as a zero gain and a zero loss. *)
Definition padded_gain (close : list Q) (t : nat) : Q :=
  match t with O => 0%Q | S _ => spec_gain close t end.

Definition padded_loss (close : list Q) (t : nat) : Q :=
  match t with O => 0%Q | S _ => spec_loss close t end.

(** Processing of a ticker fails: the fetch raises, a fundamentals field
    is absent, or the price series is empty. *)
Definition processing_fails (r : FetchResult) : Prop :=
  match r with
  | FetchRaises => True
  | Bundle info data =>
      trailingPE info = None ∨ returnOnEquity info = None ∨ data = []
  end.

(** Invalid filter bound named by the specification: a negative PE
    threshold. *)
Definition negative_pe_threshold (max_pe_filter : float) : Prop :=
  flt max_pe_filter f0 = true.

(** Concrete data for the examples. *)
Definition of_Zs (l : list Z) : Series := fmap (fun z => Fin (inject_Z z)) l.

Definition rising (n : nat) : Series := of_Zs (fmap Z.of_nat (seq 1 n)).


Definition bars (close volume : Series) : History :=
  zip_with (fun c v => {| Close := c; Volume := v |}) close volume.

Definition info_ok : Info :=
  {| trailingPE := Some (Fin 10); returnOnEquity := Some (Fin (1 # 5)) |}.

Definition info_no_pe : Info :=
  {| trailingPE := None; returnOnEquity := Some (Fin (1 # 5)) |}.

(** "SHORT": five bars, both fundamentals.  "LONG": 25 rising bars.
    "NOPE": 25 bars, no trailing PE.  "EMPTY": empty history.
    Anything else: the request raises. *)
Definition demo_upstream : Upstream := fun ticker =>
  if String.eqb ticker "SHORT" then Bundle info_ok (bars (rising 5) (of_Zs (repeat 7%Z 5)))
  else if String.eqb ticker "LONG" then Bundle info_ok (bars (rising 25) (of_Zs (repeat 7%Z 25)))
  else if String.eqb ticker "NOPE" then Bundle info_no_pe (bars (rising 25) (of_Zs (repeat 7%Z 25)))
  else if String.eqb ticker "EMPTY" then Bundle info_ok []
  else FetchRaises.

(* ===================================================================== *)
(** ** Effects of a pass, by kind *)
(* ===================================================================== *)


Definition is_upstream (e : Event) : bool :=
  match e with EvUpstream _ => true | _ => false end.


Definition is_export (e : Event) : bool :=
  match e with EvExport _ => true | _ => false end.

(** What one loop iteration does besides the upstream request, as a
    function of what was fetched for the ticker. *)
Definition local_events (plot_tickers : list string) (ticker : string)
    (r : FetchResult) : list Event :=
  match r with
  | FetchRaises => [EvPrintError ticker]
  | Bundle _ _ =>
      match row_of ticker r with
      | Some _ =>
          EvSleep :: (if bool_decide (ticker ∈ plot_tickers)
                      then [EvSaveChart ticker] else [])
      | None => []
      end
  end.

(** The state after the loop of [run_screener]. *)
Definition screen_loop (up : Upstream) (c : gmap string (Info * History))
    (selected_tickers plot_tickers : list string) : State :=
  foldl (screen_ticker up plot_tickers) (init_state c) selected_tickers.

(* ===================================================================== *)
(** ** Dashboard post-processing (lines 212-214) *)
(* ===================================================================== *)






Definition flat (n : nat) : Series := of_Zs (repeat 5%Z n).

(* ===================================================================== *)
(** ** Text: [str.strip], [str.upper], [str.split] *)
(* ===================================================================== *)

(** Text is modelled on 7-bit ASCII characters, which is what NSE symbols
    and ticker names are made of; the properties below are stated for
    such text. *)
Definition is_ascii7 (c : Ascii.ascii) : bool := Ascii.nat_of_ascii c <? 128.

(** Whitespace for [str.strip()]: tab, line feed, vertical tab, form
    feed, carriage return, the four separators 28-31 and the space. *)
Definition is_space (c : Ascii.ascii) : bool :=
  let n := Ascii.nat_of_ascii c in
  ((9 <=? n) && (n <=? 13)) || ((28 <=? n) && (n <=? 32)).

Definition upper_char (c : Ascii.ascii) : Ascii.ascii :=
  let n := Ascii.nat_of_ascii c in
  if (97 <=? n) && (n <=? 122) then Ascii.ascii_of_nat (n - 32) else c.

Fixpoint lstrip (s : list Ascii.ascii) : list Ascii.ascii :=
  match s with
  | [] => []
  | c :: s' => if is_space c then lstrip s' else s
  end.

Fixpoint rstrip (s : list Ascii.ascii) : list Ascii.ascii :=
  match s with
  | [] => []
  | c :: s' =>
      match rstrip s' with
      | [] => if is_space c then [] else [c]
      | r => c :: r
      end
  end.

(** [s.strip()] *)
Definition strip (s : list Ascii.ascii) : list Ascii.ascii := rstrip (lstrip s).

(** [s.upper()] *)
Definition upper (s : list Ascii.ascii) : list Ascii.ascii := upper_char <$> s.

(** [s.split(sep)] for a one-character separator: the pieces between the
    separators, empty pieces included; the empty text gives one empty
    piece. *)
Fixpoint split_on (sep : Ascii.ascii) (s : list Ascii.ascii) : list (list Ascii.ascii) :=
  match s with
  | [] => [[]]
  | c :: s' =>
      if Ascii.eqb c sep then [] :: split_on sep s'
      else match split_on sep s' with
           | piece :: pieces => (c :: piece) :: pieces
           | [] => [[c]]
           end
  end.

(** [sep.join(pieces)] *)
Fixpoint join_with (sep : Ascii.ascii) (pieces : list (list Ascii.ascii)) : list Ascii.ascii :=
  match pieces with
  | [] => []
  | [p] => p
  | p :: rest => p ++ sep :: join_with sep rest
  end.

Definition comma : Ascii.ascii := Ascii.ascii_of_nat 44.

(* ===================================================================== *)
(** ** The ticker universe (lines 114-130 and 162-169) *)
(* ===================================================================== *)

(** [x.strip().upper() + ".NS"] *)
Definition nse_ticker (symbol : list Ascii.ascii) : list Ascii.ascii :=
  upper (strip symbol) ++ String.list_ascii_of_string ".NS".

(** Values bound to the names of this part of the program. *)
Inductive PyValue : Type :=
| PyFrame (tickers : list (list Ascii.ascii))
| PyTime (now : nat)
| PyTuple (first second : PyValue).

(** [fetch_nifty50_cached] under [st.cache_data]: [read_csv] is the
    outcome of [pd.read_csv(url)], an error text or the Symbol column;
    the result is an error text when the call raises, else the returned
    pair; the second component is the cache afterwards. *)
Definition fetch_nifty50_cached (read_csv : string + list (list Ascii.ascii)) (now : nat)
    (cached : option PyValue) : (string + PyValue) * option PyValue :=
  match cached with
  | Some v => (inr v, cached)
  | None =>
      match read_csv with
      | inr symbols =>
          let v := PyTuple (PyFrame (nse_ticker <$> symbols)) (PyTime now) in
          (inr v, Some v)
      | inl e => (inl e, None)
      end
  end.

(** Looking up the method [to_csv]: only a DataFrame has it, and calling
    it writes the frame's rows. *)
Definition to_csv (v : PyValue) : string + list (list Ascii.ascii) :=
  match v with
  | PyFrame tickers => inr tickers
  | PyTuple _ _ => inl "'tuple' object has no attribute 'to_csv'"
  | PyTime _ => inl "'datetime.datetime' object has no attribute 'to_csv'"
  end.

(** [refresh_nifty50_csv]: the returned pair, the cache and the content
    of tickers.csv afterwards. *)
Definition refresh_nifty50_csv (read_csv : string + list (list Ascii.ascii)) (now : nat)
    (cached : option PyValue) (tickers_csv : option (list (list Ascii.ascii)))
  : (bool * string) * option PyValue * option (list (list Ascii.ascii)) :=
  match fetch_nifty50_cached read_csv now cached with
  | (inl e, cached') =>
      ((false, "❌ Failed to update: " +:+ e), cached', tickers_csv)
  | (inr df, cached') =>
      match to_csv df with
      | inr rows =>
          ((true, "✅ Updated and cached NIFTY 50 tickers."), cached', Some rows)
      | inl e =>
          ((false, "❌ Failed to update: " +:+ e), cached', tickers_csv)
      end
  end.

(** The dashboard's refresh button (lines 162-169): [df, fetched_time =
    fetch_nifty50_cached()] unpacks the pair before [df.to_csv]. *)
Definition gui_refresh (read_csv : string + list (list Ascii.ascii)) (now : nat)
    (cached : option PyValue) (tickers_csv : option (list (list Ascii.ascii)))
  : bool * option PyValue * option (list (list Ascii.ascii)) :=
  match fetch_nifty50_cached read_csv now cached with
  | (inl e, cached') => (false, cached', tickers_csv)
  | (inr (PyTuple df fetched_time), cached') =>
      match to_csv df with
      | inr rows => (true, cached', Some rows)
      | inl e => (false, cached', tickers_csv)
      end
  | (inr _, cached') => (false, cached', tickers_csv)
  end.

(** The cache of [fetch_nifty50_cached] holds nothing, or a pair the
    function returned for some Symbol column at some time. *)
Definition nifty_cache_ok (cached : option PyValue) : Prop :=
  cached = None ∨
  ∃ symbols now,
    cached = Some (PyTuple (PyFrame (nse_ticker <$> symbols)) (PyTime now)).

Definition ascii7_text (s : list Ascii.ascii) : Prop :=
  Forall (λ c, is_ascii7 c = true) s.

(* ===================================================================== *)
(** ** Command-line mode (lines 134-144) *)
(* ===================================================================== *)

(** [[t.strip().upper() for t in args.plot.split(',') if t.strip()]] *)
Definition parse_plot (plot : list Ascii.ascii) : list (list Ascii.ascii) :=
  omap (λ t, match strip t with
             | [] => None
             | _ :: _ => Some (upper (strip t))
             end) (split_on comma plot).

(** A plot name as the parser produces them. *)
Definition plot_name_ok (t : list Ascii.ascii) : Prop :=
  t ≠ [] ∧ (comma ∉ t) ∧ strip t = t ∧ upper t = t.

(* ===================================================================== *)
(** ** Facts about the numeric operations *)
(* ===================================================================== *)

Lemma Qle_bool_false (x y : Q) : Qle_bool x y = false ↔ (y < x)%Q.
Proof.
  split; intros H.
  - apply Qnot_le_lt. intros Hle. apply Qle_bool_iff in Hle. congruence.
  - destruct (Qle_bool x y) eqn:E; [|done].
    apply Qle_bool_iff in E. exfalso. revert E. by apply Qlt_not_le.
Qed.

Lemma Qlt_bool_iff (x y : Q) : Qlt_bool x y = true ↔ (x < y)%Q.
Proof. unfold Qlt_bool. rewrite negb_true_iff. apply Qle_bool_false. Qed.

Lemma Qlt_bool_false (x y : Q) : Qlt_bool x y = false ↔ (y <= x)%Q.
Proof. unfold Qlt_bool. rewrite negb_false_iff. apply Qle_bool_iff. Qed.

(** Turn the boolean tests on rationals in the context into propositions. *)
Ltac qprop :=
  repeat match goal with
  | H : Qeq_bool _ _ = true |- _ => apply Qeq_bool_iff in H
  | H : Qeq_bool _ _ = false |- _ => apply Qeq_bool_neq in H
  | H : Qle_bool _ _ = true |- _ => apply Qle_bool_iff in H
  | H : Qle_bool _ _ = false |- _ => apply Qle_bool_false in H
  | H : Qlt_bool _ _ = true |- _ => apply Qlt_bool_iff in H
  | H : Qlt_bool _ _ = false |- _ => apply Qlt_bool_false in H
  end.

Lemma flt_NaN_l (x : float) : flt NaN x = false.
Proof. done. Qed.

Lemma flt_NaN_r (x : float) : flt x NaN = false.
Proof. by destruct x. Qed.

Lemma fgt_NaN_l (x : float) : fgt NaN x = false.
Proof. apply flt_NaN_r. Qed.

Lemma fgt_NaN_r (x : float) : fgt x NaN = false.
Proof. done. Qed.

Lemma fmul_NaN_r (x : float) : fmul x NaN = NaN.
Proof. by destruct x. Qed.


(* ===================================================================== *)
(** ** The signal rule *)
(* ===================================================================== *)


Lemma signal_of_undefined (rsi close sma20 : float) :
  rsi = NaN ∨ sma20 = NaN → signal_of rsi close sma20 = "Hold".
Proof.
  unfold signal_of. intros [-> | ->].
  - by rewrite flt_NaN_l, fgt_NaN_l.
  - rewrite fgt_NaN_r, flt_NaN_r. by rewrite !andb_false_r.
Qed.


(* ===================================================================== *)
(** ** Series operations *)
(* ===================================================================== *)

Lemma length_diff (s : Series) : length (diff s) = length s.
Proof.
  destruct s as [|x tl]; [done|].
  unfold diff. cbn [length]. rewrite length_zip_with. cbn [length]. lia.
Qed.

Lemma lookup_diff_0 (s : Series) : 0 < length s → diff s !! 0 = Some NaN.
Proof. destruct s; simpl; [lia|done]. Qed.

Lemma lookup_diff_S (s : Series) (t : nat) (a b : float) :
  s !! t = Some a → s !! S t = Some b → diff s !! S t = Some (fsub b a).
Proof.
  destruct s as [|x tl]; [done|]. unfold diff. intros Ha Hb.
  change ((NaN :: zip_with (λ prev cur, fsub cur prev) (x :: tl) tl) !! S t)
    with (zip_with (λ prev cur, fsub cur prev) (x :: tl) tl !! t).
  change ((x :: tl) !! S t) with (tl !! t) in Hb.
  by rewrite lookup_zip_with, Ha, Hb.
Qed.

Lemma length_where (cond : float → bool) (other : float) (s : Series) :
  length (where_ cond other s) = length s.
Proof. unfold where_. by rewrite length_fmap. Qed.

Lemma lookup_where (cond : float → bool) (other : float) (s : Series) (t : nat) :
  where_ cond other s !! t = (λ d, if cond d then d else other) <$> s !! t.
Proof. unfold where_. by rewrite list_lookup_fmap. Qed.

Lemma length_rolling_mean (w : nat) (s : Series) :
  length (rolling_mean w s) = length s.
Proof. unfold rolling_mean. by rewrite length_imap. Qed.

Lemma lookup_rolling_mean (w : nat) (s : Series) (t : nat) :
  t < length s →
  rolling_mean w s !! t =
    Some (if decide (S t < w) then NaN
          else if forallb is_finite (window w t s)
               then fdiv (fsum (window w t s)) (of_nat w) else NaN).
Proof.
  intros [x Hx]%lookup_lt_is_Some_2.
  unfold rolling_mean. by rewrite list_lookup_imap, Hx.
Qed.

(** Warm-up: the first [w - 1] entries of a rolling mean are NaN. *)
Lemma rolling_mean_warmup (w : nat) (s : Series) (t : nat) :
  t < length s → S t < w → rolling_mean w s !! t = Some NaN.
Proof.
  intros Ht Hw. rewrite lookup_rolling_mean by done. by rewrite decide_True.
Qed.

Lemma length_window (w t : nat) (s : Series) :
  t < length s → w ≤ S t → length (window w t s) = w.
Proof.
  intros Ht Hw. unfold window. rewrite length_take, length_drop. lia.
Qed.

Lemma lookup_window (w t : nat) (s : Series) (i : nat) :
  i < w → window w t s !! i = s !! (S t - w + i).
Proof.
  intros Hi. unfold window. by rewrite lookup_take_lt, lookup_drop.
Qed.


Lemma length_rsi_gain (w : nat) (s : Series) : length (rsi_gain w s) = length s.
Proof.
  unfold rsi_gain. by rewrite length_rolling_mean, length_where, length_diff.
Qed.

Lemma length_rsi_loss (w : nat) (s : Series) : length (rsi_loss w s) = length s.
Proof.
  unfold rsi_loss.
  by rewrite length_fmap, length_rolling_mean, length_where, length_diff.
Qed.

Lemma length_calculate_rsi_window (w : nat) (s : Series) :
  length (calculate_rsi_window w s) = length s.
Proof.
  unfold calculate_rsi_window.
  rewrite length_fmap, length_zip_with, length_rsi_gain, length_rsi_loss. lia.
Qed.

Lemma lookup_calculate_rsi_window (w : nat) (s : Series) (t : nat) (x : float) :
  calculate_rsi_window w s !! t = Some x ↔
  ∃ g l, rsi_gain w s !! t = Some g ∧ rsi_loss w s !! t = Some l ∧
         x = rsi_of_rs (fdiv g l).
Proof.
  unfold calculate_rsi_window. rewrite list_lookup_fmap, fmap_Some.
  split.
  - intros (rs & Hrs & ->). apply lookup_zip_with_Some in Hrs as (g & l & -> & ? & ?).
    eauto.
  - intros (g & l & Hg & Hl & ->). exists (fdiv g l). split; [|done].
    apply lookup_zip_with_Some. eauto.
Qed.

Lemma rsi_of_rs_NaN : rsi_of_rs NaN = NaN.
Proof. done. Qed.

Lemma fdiv_NaN_l (y : float) : fdiv NaN y = NaN.
Proof. done. Qed.

Lemma fdiv_NaN_r (x : float) : fdiv x NaN = NaN.
Proof. by destruct x. Qed.


(* ===================================================================== *)
(** ** Volume spike and the indicator frame *)
(* ===================================================================== *)

Lemma length_volume_spike (volume : Series) :
  length (volume_spike volume) = length volume.
Proof.
  unfold volume_spike. rewrite length_zip_with, length_rolling_mean. lia.
Qed.

Lemma lookup_volume_spike (volume : Series) (t : nat) (k : bool) :
  volume_spike volume !! t = Some k ↔
  ∃ v m, volume !! t = Some v ∧ rolling_mean 20 volume !! t = Some m ∧
         k = fgt v (fmul f1_5 m).
Proof.
  unfold volume_spike. rewrite lookup_zip_with_Some.
  split; intros (v & m & H1 & H2 & H3); exists v, m; done.
Qed.

Lemma fgt_fmul_NaN (v : float) : fgt v (fmul f1_5 NaN) = false.
Proof. done. Qed.

Lemma length_add_indicators (data : History) :
  length (add_indicators data) = length data.
Proof.
  unfold add_indicators.
  rewrite length_zip_with, !length_zip, length_volume_spike,
    length_rolling_mean. unfold calculate_rsi.
  rewrite length_calculate_rsi_window, !length_fmap. lia.
Qed.

Lemma lookup_add_indicators (data : History) (t : nat) (ib : IndicatorBar) :
  add_indicators data !! t = Some ib ↔
  ∃ b r s k,
    data !! t = Some b ∧
    calculate_rsi (Close <$> data) !! t = Some r ∧
    rolling_mean 20 (Close <$> data) !! t = Some s ∧
    volume_spike (Volume <$> data) !! t = Some k ∧
    ib = {| ib_Close := Close b; ib_Volume := Volume b;
            ib_RSI := r; ib_SMA20 := s; ib_Volume_Spike := k |}.
Proof.
  unfold add_indicators. rewrite lookup_zip_with_Some. split.
  - intros (b & rsk & -> & Hb & Hz).
    apply lookup_zip_with_Some in Hz as (rs & k & -> & Hrs & Hk).
    apply lookup_zip_with_Some in Hrs as (r & s & -> & Hr & Hs).
    exists b, r, s, k. done.
  - intros (b & r & s & k & Hb & Hr & Hs & Hk & ->).
    exists b, (r, s, k). split_and!; [done..|].
    apply lookup_zip_with_Some. exists (r, s), k. split_and!; [done| |done].
    apply lookup_zip_with_Some. eauto.
Qed.

(** The last row of a non-empty frame carries the indicators of the last
    bar. *)
Lemma last_add_indicators (data : History) :
  data ≠ [] →
  ∃ b r s k,
    last data = Some b ∧
    last (calculate_rsi (Close <$> data)) = Some r ∧
    last (rolling_mean 20 (Close <$> data)) = Some s ∧
    last (volume_spike (Volume <$> data)) = Some k ∧
    last (add_indicators data) =
      Some {| ib_Close := Close b; ib_Volume := Volume b;
              ib_RSI := r; ib_SMA20 := s; ib_Volume_Spike := k |}.
Proof.
  intros Hne.
  assert (Hlen : pred (length data) < length (add_indicators data)).
  { rewrite length_add_indicators. destruct data; [done|simpl; lia]. }
  apply lookup_lt_is_Some_2 in Hlen as [ib Hib].
  pose proof Hib as Hib'.
  apply lookup_add_indicators in Hib' as (b & r & s & k & Hb & Hr & Hs & Hk & ->).
  exists b, r, s, k. rewrite !last_lookup.
  rewrite length_add_indicators, length_volume_spike, length_rolling_mean.
  unfold calculate_rsi in *.
  rewrite length_calculate_rsi_window, !length_fmap. done.
Qed.

(* ===================================================================== *)
(** ** Structure of a screening pass *)
(* ===================================================================== *)

Lemma fetch_stock_bundle_result (up : Upstream) (ticker : string)
    (c : gmap string (Info * History)) :
  (fetch_stock_bundle up ticker c).1.1 = fetched up c ticker.
Proof.
  unfold fetch_stock_bundle, fetched.
  destruct (c !! ticker) as [[info hist]|]; [done|].
  by destruct (up ticker).
Qed.

(** Filling the cache does not change what later fetches return. *)
Lemma fetch_stock_bundle_cache (up : Upstream) (ticker : string)
    (c : gmap string (Info * History)) (t' : string) :
  fetched up (fetch_stock_bundle up ticker c).1.2 t' = fetched up c t'.
Proof.
  unfold fetch_stock_bundle, fetched.
  destruct (c !! ticker) as [[info hist]|] eqn:Hc; [done|].
  destruct (up ticker) as [|info hist] eqn:Hup; [done|]. simpl.
  destruct (decide (t' = ticker)) as [->|Hne].
  - by rewrite lookup_insert_eq, Hc, Hup.
  - by rewrite lookup_insert_ne.
Qed.

Lemma screen_ticker_cache (up : Upstream) (plot_tickers : list string)
    (st : State) (ticker t' : string) :
  fetched up (cache (screen_ticker up plot_tickers st ticker)) t' =
  fetched up (cache st) t'.
Proof.
  rewrite <- (fetch_stock_bundle_cache up ticker (cache st) t').
  unfold screen_ticker.
  destruct (fetch_stock_bundle up ticker (cache st)) as [[[|info data] c] evs];
    [done|]. simpl.
  destruct (trailingPE info), (returnOnEquity info), data; try done.
  by destruct (last _).
Qed.

Lemma screen_ticker_summary (up : Upstream) (plot_tickers : list string)
    (st : State) (ticker : string) :
  summary_data (screen_ticker up plot_tickers st ticker) =
  summary_data st ++ option_list (row_of ticker (fetched up (cache st) ticker)).
Proof.
  rewrite <- fetch_stock_bundle_result. unfold screen_ticker, row_of.
  destruct (fetch_stock_bundle up ticker (cache st)) as [[[|info data] c] evs];
    simpl; [by rewrite app_nil_r|].
  destruct (trailingPE info), (returnOnEquity info), data;
    simpl; try by rewrite app_nil_r.
  destruct (last _); simpl; [done|by rewrite app_nil_r].
Qed.

Lemma screen_loop_cache (up : Upstream) (plot_tickers tickers : list string)
    (st : State) (t' : string) :
  fetched up (cache (foldl (screen_ticker up plot_tickers) st tickers)) t' =
  fetched up (cache st) t'.
Proof.
  revert st. induction tickers as [|t tickers IH]; intros st; [done|].
  simpl. by rewrite IH, screen_ticker_cache.
Qed.

Lemma screen_loop_summary (up : Upstream) (plot_tickers tickers : list string)
    (st : State) :
  summary_data (foldl (screen_ticker up plot_tickers) st tickers) =
  summary_data st ++
    omap (λ t, row_of t (fetched up (cache st) t)) tickers.
Proof.
  revert st. induction tickers as [|t tickers IH]; intros st.
  - simpl. by rewrite app_nil_r.
  - simpl. rewrite IH, screen_ticker_summary, <- app_assoc. f_equal.
    assert (Heq : omap (λ t0, row_of t0
                     (fetched up (cache (screen_ticker up plot_tickers st t)) t0)) tickers
                  = omap (λ t0, row_of t0 (fetched up (cache st) t0)) tickers).
    { apply list_omap_ext, Forall2_same_length_lookup. split; [done|].
      intros i x y Hx Hy. simplify_eq. by rewrite screen_ticker_cache. }
    rewrite Heq. by destruct (row_of t _).
Qed.

(** [fullTable] holds, in input order, the rows of the tickers that
    contribute one. *)
Lemma run_screener_fullTable (up : Upstream) (c : gmap string (Info * History))
    (selected_tickers plot_tickers : list string) (max_pe min_roe : float) :
  fullTable (run_screener up c selected_tickers plot_tickers max_pe min_roe) =
  omap (λ t, row_of t (fetched up c t)) selected_tickers.
Proof.
  unfold run_screener, fullTable.
  pose proof (screen_loop_summary up plot_tickers selected_tickers (init_state c)) as H.
  simpl in H. rewrite <- H.
  by destruct (summary_data _).
Qed.

Lemma run_screener_filteredTable (up : Upstream) (c : gmap string (Info * History))
    (selected_tickers plot_tickers : list string) (max_pe min_roe : float) :
  filteredTable (run_screener up c selected_tickers plot_tickers max_pe min_roe) =
  List.filter (passes_filters max_pe min_roe)
    (fullTable (run_screener up c selected_tickers plot_tickers max_pe min_roe)).
Proof.
  unfold run_screener, fullTable, filteredTable.
  by destruct (summary_data _).
Qed.

Lemma row_of_Ticker (ticker : string) (r : FetchResult) (row : Row) :
  row_of ticker r = Some row → Ticker row = ticker.
Proof.
  unfold row_of. destruct r as [|info data]; [done|].
  destruct (trailingPE info), (returnOnEquity info),
    (last (add_indicators data)); try done.
  by intros [= <-].
Qed.

Lemma row_of_fails (ticker : string) (r : FetchResult) :
  processing_fails r → row_of ticker r = None.
Proof.
  destruct r as [|info data]; [done|]. simpl.
  intros [-> | [-> | ->]]; [done| |].
  - by destruct (trailingPE info).
  - by destruct (trailingPE info), (returnOnEquity info).
Qed.


Lemma row_of_inv (ticker : string) (info : Info) (data : History) (row : Row) :
  row_of ticker (Bundle info data) = Some row →
  ∃ pe roe last_row,
    trailingPE info = Some pe ∧ returnOnEquity info = Some roe ∧
    last (add_indicators data) = Some last_row ∧
    row = make_row ticker pe roe last_row.
Proof.
  simpl. destruct (trailingPE info) as [pe|], (returnOnEquity info) as [roe|],
    (last (add_indicators data)) as [lr|]; try done.
  intros [= <-]. by exists pe, roe, lr.
Qed.


Lemma round2_NaN : round2 NaN = NaN.
Proof. done. Qed.

Lemma filter_sublist {A} (f : A → bool) (l : list A) : List.filter f l `sublist_of` l.
Proof.
  induction l as [|x l IH]; simpl; [constructor|].
  destruct (f x); by constructor.
Qed.

Lemma cache_consistent_fetched (up : Upstream) (c : gmap string (Info * History)) :
  cache_consistent up c ↔ ∀ t, fetched up c t = up t.
Proof.
  unfold cache_consistent, fetched. split.
  - intros H t. destruct (c !! t) as [[info hist]|] eqn:E; [|done].
    symmetry. by apply H.
  - intros H t info hist E. specialize (H t). by rewrite E in H.
Qed.

Lemma run_screener_cache (up : Upstream) (c : gmap string (Info * History))
    (selected_tickers plot_tickers : list string) (max_pe min_roe : float) (t : string) :
  fetched up
    (cache (final_state (run_screener up c selected_tickers plot_tickers max_pe min_roe))) t
  = fetched up c t.
Proof.
  unfold run_screener, final_state.
  pose proof (screen_loop_cache up plot_tickers selected_tickers (init_state c) t) as H.
  by destruct (summary_data _).
Qed.

(* ===================================================================== *)
(** ** Properties of the screening pass *)
(* ===================================================================== *)




(** C4: [filteredTable] consists exactly of the rows of [fullTable] with
    PE ratio <= max PE and ROE (%) >= min ROE, in the same order; it is a
    sub-table of [fullTable]; each of its rows satisfies both bounds; and
    when [fullTable] is empty both tables are empty and the pass returns
    them right after the loop, without any export. *)
Theorem C4_filtered_table (up : Upstream) (c : gmap string (Info * History))
    (selected_tickers plot_tickers : list string) (max_pe min_roe : float) :
  let r := run_screener up c selected_tickers plot_tickers max_pe min_roe in
  filteredTable r =
    List.filter (λ row, fle (PE_Ratio row) max_pe && fge (ROE_pct row) min_roe)
      (fullTable r) ∧
  (∀ row, row ∈ filteredTable r ↔
          row ∈ fullTable r ∧
          fle (PE_Ratio row) max_pe = true ∧ fge (ROE_pct row) min_roe = true) ∧
  filteredTable r `sublist_of` fullTable r ∧
  (fullTable r = [] →
     filteredTable r = [] ∧
     final_state r =
       foldl (screen_ticker up plot_tickers) (init_state c) selected_tickers).
Proof.
  intros r. subst r.
  pose proof (run_screener_filteredTable up c selected_tickers plot_tickers
                max_pe min_roe) as Hf.
  split_and!.
  - exact Hf.
  - intros row. rewrite Hf, !list_elem_of_In, filter_In.
    unfold passes_filters. by rewrite andb_true_iff.
  - rewrite Hf. apply filter_sublist.
  - intros Hfull. rewrite Hf, Hfull. split; [done|].
    revert Hfull. unfold run_screener, fullTable, final_state.
    by destruct (summary_data _).
Qed.

(** C5: a ticker whose processing fails (the fetch raises, trailingPE or
    returnOnEquity is absent, or the series is empty) contributes no row
    to [fullTable], whatever its price history, and the pass goes on with
    the tickers after it: the table is the one obtained without that
    ticker in the list. *)
Theorem C5_failed_ticker_skipped (up : Upstream) (c : gmap string (Info * History))
    (before after plot_tickers : list string) (max_pe min_roe : float)
    (ticker : string) :
  processing_fails (fetched up c ticker) →
  let full := fullTable (run_screener up c (before ++ ticker :: after)
                           plot_tickers max_pe min_roe) in
  (∀ row, row ∈ full → Ticker row ≠ ticker) ∧
  full = fullTable (run_screener up c (before ++ after) plot_tickers max_pe min_roe).
Proof.
  intros Hfail full. subst full. rewrite !run_screener_fullTable.
  apply (row_of_fails ticker) in Hfail. split.
  - intros row [t [_ Hrow]]%list_elem_of_omap Heq.
    apply row_of_Ticker in Hrow as Ht. rewrite Heq in Ht. subst t.
    by rewrite Hfail in Hrow.
  - rewrite !omap_app. f_equal. csimpl. by rewrite Hfail.
Qed.

Lemma C5_failed_ticker_skipped_witness :
  let full := fullTable (run_screener demo_upstream ∅ (["LONG"] ++ "NOPE" :: ["SHORT"])
                           [] default_max_pe default_min_roe) in
  (∀ row, row ∈ full → Ticker row ≠ "NOPE") ∧
  full = fullTable (run_screener demo_upstream ∅ (["LONG"] ++ ["SHORT"]) []
                      default_max_pe default_min_roe).
Proof.
  apply (C5_failed_ticker_skipped demo_upstream ∅ ["LONG"] ["SHORT"] []
           default_max_pe default_min_roe "NOPE").
  vm_compute. left. reflexivity.
Defined.

(** C8, as the specification states it, fails: a call with a negative PE
    threshold is not rejected; the ticker is fetched and screened, its row
    is emitted, and both tables are exported. *)
Lemma C8_counterexample :
  negative_pe_threshold (Fin (-1)) ∧
  let r := run_screener demo_upstream ∅ ["LONG"] [] (Fin (-1)) default_min_roe in
  fullTable r
    = [ {| Ticker := "LONG"; PE_Ratio := Fin 10; ROE_pct := Fin 20;
           RSI := Fin 100; Volume_Spike_Today := "No"; Signal := "Hold" |} ] ∧
  filteredTable r = [] ∧
  trace (final_state r)
    = [ EvUpstream "LONG"; EvSleep;
        EvExport "exports/all_results.xlsx";
        EvExport "exports/filtered_results.xlsx" ].
Proof. vm_compute. done. Qed.

(** C8 (amended): the entry point performs no validation of the filter
    bounds.  Whatever the bounds, every ticker is fetched and screened the
    same way: [fullTable], the cache and the trace of effects do not depend
    on them.  The bounds are used only afterwards, per row, as the two
    comparisons that select [filteredTable]. *)
Theorem C8_bounds_applied_per_row (up : Upstream) (c : gmap string (Info * History))
    (selected_tickers plot_tickers : list string)
    (max_pe min_roe max_pe' min_roe' : float) :
  let r := run_screener up c selected_tickers plot_tickers max_pe min_roe in
  let r' := run_screener up c selected_tickers plot_tickers max_pe' min_roe' in
  fullTable r = fullTable r' ∧
  final_state r = final_state r' ∧
  filteredTable r =
    List.filter (λ row, fle (PE_Ratio row) max_pe && fge (ROE_pct row) min_roe)
      (fullTable r).
Proof.
  intros r r'. subst r r'. split_and!.
  - by rewrite !run_screener_fullTable.
  - unfold run_screener, final_state. by destruct (summary_data _).
  - apply run_screener_filteredTable.
Qed.

(** C9: with unchanged upstream data, two runs on the same ticker list,
    plot set and bounds return the same two tables, whatever the cache
    holds at the start of each run (as long as it holds upstream answers);
    in particular a run started from the cache left by a first run returns
    the tables of the first, and leaves a cache that is again consistent. *)
Theorem C9_rerun_identical (up : Upstream) (c1 c2 : gmap string (Info * History))
    (selected_tickers plot_tickers : list string) (max_pe min_roe : float) :
  cache_consistent up c1 →
  cache_consistent up c2 →
  let r1 := run_screener up c1 selected_tickers plot_tickers max_pe min_roe in
  let r2 := run_screener up c2 selected_tickers plot_tickers max_pe min_roe in
  let again := run_screener up (cache (final_state r1))
                 selected_tickers plot_tickers max_pe min_roe in
  (fullTable r1 = fullTable r2 ∧ filteredTable r1 = filteredTable r2) ∧
  (fullTable again = fullTable r1 ∧ filteredTable again = filteredTable r1) ∧
  cache_consistent up (cache (final_state r1)).
Proof.
  intros H1 H2 r1 r2 again. subst r1 r2 again.
  assert (Hnext : cache_consistent up
            (cache (final_state (run_screener up c1 selected_tickers plot_tickers
                                   max_pe min_roe)))).
  { apply cache_consistent_fetched. intros t. rewrite run_screener_cache.
    by apply cache_consistent_fetched. }
  assert (Hfull : ∀ c, cache_consistent up c →
            fullTable (run_screener up c selected_tickers plot_tickers max_pe min_roe)
            = omap (λ t, row_of t (up t)) selected_tickers).
  { intros c Hc. rewrite run_screener_fullTable.
    apply list_omap_ext, Forall2_same_length_lookup. split; [done|].
    intros i x y Hx Hy. simplify_eq.
    f_equal. by apply cache_consistent_fetched. }
  rewrite !run_screener_filteredTable, !Hfull by done. done.
Qed.

Lemma C9_rerun_identical_witness :
  let r1 := run_screener demo_upstream ∅ ["LONG"; "NOPE"; "SHORT"] ["LONG"]
              default_max_pe default_min_roe in
  let r2 := run_screener demo_upstream
              {[ "SHORT" := (info_ok, bars (rising 5) (of_Zs (repeat 7%Z 5))) ]}
              ["LONG"; "NOPE"; "SHORT"] ["LONG"] default_max_pe default_min_roe in
  let again := run_screener demo_upstream (cache (final_state r1))
                 ["LONG"; "NOPE"; "SHORT"] ["LONG"] default_max_pe default_min_roe in
  (fullTable r1 = fullTable r2 ∧ filteredTable r1 = filteredTable r2) ∧
  (fullTable again = fullTable r1 ∧ filteredTable again = filteredTable r1) ∧
  cache_consistent demo_upstream (cache (final_state r1)).
Proof.
  apply (C9_rerun_identical demo_upstream ∅
           {[ "SHORT" := (info_ok, bars (rising 5) (of_Zs (repeat 7%Z 5))) ]}).
  - intros t info hist H. by rewrite lookup_empty in H.
  - intros t info hist [<- Heq]%lookup_singleton_Some.
    injection Heq as <- <-. reflexivity.
Defined.

(** C10: at a bar where the trailing 20-bar volume average is undefined
    (in particular at each of the first 19 bars) the volume-spike flag is
    [false]; hence the row emitted for a series whose last bar is such a
    bar reports "No". *)
Theorem C10_no_spike_without_average (data : History) (t : nat) :
  t < length data →
  t < 19 ∨ rolling_mean 20 (Volume <$> data) !! t = Some NaN →
  rolling_mean 20 (Volume <$> data) !! t = Some NaN ∧
  volume_spike (Volume <$> data) !! t = Some false ∧
  (∀ ib, add_indicators data !! t = Some ib → ib_Volume_Spike ib = false) ∧
  (S t = length data →
   ∀ up c selected_tickers plot_tickers max_pe min_roe row info,
     row ∈ fullTable (run_screener up c selected_tickers plot_tickers max_pe min_roe) →
     fetched up c (Ticker row) = Bundle info data →
     Volume_Spike_Today row = "No").
Proof.
  intros Ht Hundef.
  assert (Hmean : rolling_mean 20 (Volume <$> data) !! t = Some NaN).
  { destruct Hundef as [H19|H]; [|done].
    apply rolling_mean_warmup; [by rewrite length_fmap|lia]. }
  assert (Hspike : volume_spike (Volume <$> data) !! t = Some false).
  { destruct (lookup_lt_is_Some_2 (Volume <$> data) t) as [v Hv];
      [by rewrite length_fmap|].
    apply lookup_volume_spike. exists v, NaN. done. }
  assert (Hib : ∀ ib, add_indicators data !! t = Some ib → ib_Volume_Spike ib = false).
  { intros ib (b & r & s & k & _ & _ & _ & Hk & ->)%lookup_add_indicators.
    simpl. congruence. }
  split_and!; [done..|].
  intros Hlast up c selected_tickers plot_tickers max_pe min_roe row info Hrow Hf.
  rewrite run_screener_fullTable in Hrow.
  apply list_elem_of_omap in Hrow as (t' & _ & Hrow).
  apply row_of_Ticker in Hrow as Heq. subst t'. rewrite Hf in Hrow.
  apply row_of_inv in Hrow as (pe & roe & lr & _ & _ & Hlr & ->).
  rewrite last_lookup, length_add_indicators, <- Hlast in Hlr. simpl in Hlr.
  simpl. by rewrite (Hib lr Hlr).
Qed.

Lemma C10_no_spike_without_average_witness :
  rolling_mean 20 (Volume <$> bars (rising 5) (of_Zs (repeat 7%Z 5))) !! 4 = Some NaN ∧
  volume_spike (Volume <$> bars (rising 5) (of_Zs (repeat 7%Z 5))) !! 4 = Some false ∧
  (∀ ib, add_indicators (bars (rising 5) (of_Zs (repeat 7%Z 5))) !! 4 = Some ib →
         ib_Volume_Spike ib = false) ∧
  (5 = length (bars (rising 5) (of_Zs (repeat 7%Z 5))) →
   ∀ up c selected_tickers plot_tickers max_pe min_roe row info,
     row ∈ fullTable (run_screener up c selected_tickers plot_tickers max_pe min_roe) →
     fetched up c (Ticker row) = Bundle info (bars (rising 5) (of_Zs (repeat 7%Z 5))) →
     Volume_Spike_Today row = "No").
Proof.
  apply (C10_no_spike_without_average (bars (rising 5) (of_Zs (repeat 7%Z 5))) 4).
  - vm_compute. lia.
  - left. lia.
Defined.

(* ===================================================================== *)
(** ** Sums over a window *)
(* ===================================================================== *)








(* ===================================================================== *)
(** ** Exact values of sums, means and the RSI expression *)
(* ===================================================================== *)

Lemma qsum_nil : qsum [] = 0%Q.
Proof. done. Qed.

Lemma qsum_cons (q : Q) (l : list Q) : qsum (q :: l) = (q + qsum l)%Q.
Proof. done. Qed.

Lemma foldl_fadd_Fin (l : list float) (a : Q) :
  Forall (λ x, ∃ q, x = Fin q) l →
  ∃ s, foldl fadd (Fin a) l = Fin s ∧ (s == a + qsum (fval <$> l))%Q.
Proof.
  revert a. induction l as [|x l IH]; intros a Hl.
  - exists a. split; [done|]. rewrite fmap_nil, qsum_nil. ring.
  - apply Forall_cons in Hl as [[q ->] Hl].
    destruct (IH (Qred (a + q)) Hl) as (s & Hs & Heq).
    exists s. split; [exact Hs|].
    rewrite Heq, Qred_correct, fmap_cons, qsum_cons.
    change (fval (Fin q)) with q. ring.
Qed.

Lemma fsum_Fin (l : list float) :
  Forall (λ x, ∃ q, x = Fin q) l →
  ∃ s, fsum l = Fin s ∧ (s == qsum (fval <$> l))%Q.
Proof.
  intros Hl. destruct (foldl_fadd_Fin l 0 Hl) as (s & Hs & Heq).
  exists s. split; [exact Hs|]. rewrite Heq. ring.
Qed.

Lemma Qdiv_eq_0 (a b : Q) : (0 < b)%Q → (a / b == 0)%Q → (a == 0)%Q.
Proof.
  intros Hb H.
  assert (Heq : (a == a / b * b)%Q) by (field; lra).
  rewrite Heq, H. ring.
Qed.

(** Division of a finite value by a positive finite value. *)
Lemma fdiv_Fin_pos (a b : Q) :
  (0 < b)%Q → ∃ r, fdiv (Fin a) (Fin b) = Fin r ∧ (r == a / b)%Q.
Proof.
  intros Hb. simpl.
  destruct (Qeq_bool b 0) eqn:Eb; [qprop; lra|].
  destruct (Qeq_bool (a / b) 0) eqn:Eq.
  - qprop. pose proof (Qdiv_eq_0 a b Hb Eq) as Ha.
    assert (Hs : Qlt_bool a 0 = false) by (apply Qlt_bool_false; lra).
    assert (Hs' : Qlt_bool b 0 = false) by (apply Qlt_bool_false; lra).
    rewrite Hs, Hs'. simpl. exists 0%Q. split; [done|]. by rewrite Eq.
  - exists (Qred (a / b)). split; [done|]. apply Qred_correct.
Qed.

Lemma of_nat_pos (w : nat) : 0 < w → (0 < inject_Z (Z.of_nat w))%Q.
Proof.
  intros Hw. change 0%Q with (inject_Z 0). rewrite <- Zlt_Qlt. lia.
Qed.

Lemma mean_Fin (l : list float) (w : nat) :
  0 < w → Forall (λ x, ∃ q, x = Fin q) l →
  ∃ m, fdiv (fsum l) (of_nat w) = Fin m ∧
       (m == qsum (fval <$> l) / inject_Z (Z.of_nat w))%Q.
Proof.
  intros Hw Hl. destruct (fsum_Fin l Hl) as (s & -> & Hs).
  destruct (fdiv_Fin_pos s (inject_Z (Z.of_nat w)) (of_nat_pos w Hw)) as (m & Hm & Heq).
  exists m. split; [exact Hm|]. by rewrite Heq, Hs.
Qed.

Lemma qsum_nonneg (l : list Q) : Forall (λ q, (0 <= q)%Q) l → (0 <= qsum l)%Q.
Proof.
  induction 1 as [|q l Hq _ IH]; [rewrite qsum_nil; lra|].
  rewrite qsum_cons. lra.
Qed.

Lemma qsum_nonpos (l : list Q) : Forall (λ q, (q <= 0)%Q) l → (qsum l <= 0)%Q.
Proof.
  induction 1 as [|q l Hq _ IH]; [rewrite qsum_nil; lra|].
  rewrite qsum_cons. lra.
Qed.

Lemma Qdiv_nonneg (a b : Q) : (0 <= a)%Q → (0 < b)%Q → (0 <= a / b)%Q.
Proof. intros Ha Hb. apply Qle_shift_div_l; [done|]. lra. Qed.

Lemma Qdiv_nonpos (a b : Q) : (a <= 0)%Q → (0 < b)%Q → (a / b <= 0)%Q.
Proof. intros Ha Hb. apply Qle_shift_div_r; [done|]. lra. Qed.

(** Entries of the two series handed to the rolling mean. *)
Lemma where_gain_entry (d : float) :
  (if fgt d f0 then d else f0) = Inf false ∨
  ∃ q, (if fgt d f0 then d else f0) = Fin q ∧ (0 <= q)%Q.
Proof.
  unfold fgt, f0. destruct d as [|[]| |q]; simpl;
    try (right; exists 0%Q; split; [done|lra]); [by left|].
  destruct (Qlt_bool 0 q) eqn:E; qprop; right.
  - exists q. split; [done|lra].
  - exists 0%Q. split; [done|lra].
Qed.

Lemma where_loss_entry (d : float) :
  (if flt d f0 then d else f0) = Inf true ∨
  ∃ q, (if flt d f0 then d else f0) = Fin q ∧ (q <= 0)%Q.
Proof.
  unfold f0. destruct d as [|[]| |q]; simpl;
    try (right; exists 0%Q; split; [done|lra]); [by left|].
  destruct (Qlt_bool q 0) eqn:E; qprop; right.
  - exists q. split; [done|lra].
  - exists 0%Q. split; [done|lra].
Qed.

(** A rolling mean over a series whose finite entries are all of one sign
    is NaN or a finite value of that sign. *)
Lemma rolling_mean_sign (P : Q → Prop) (w : nat) (s : Series) (t : nat) (m : float) :
  0 < w →
  (∀ l, Forall P l → P (qsum l / inject_Z (Z.of_nat w))%Q) →
  (∀ a b, (a == b)%Q → P a → P b) →
  Forall (λ x, is_finite x = true → ∃ q, x = Fin q ∧ P q) s →
  rolling_mean w s !! t = Some m →
  m = NaN ∨ ∃ q, m = Fin q ∧ P q.
Proof.
  intros Hw Hsum Hproper Hs Hm.
  pose proof (lookup_lt_Some _ _ _ Hm) as Hlt. rewrite length_rolling_mean in Hlt.
  rewrite lookup_rolling_mean in Hm by done. injection Hm as <-.
  case_decide; [by left|].
  destruct (forallb is_finite (window w t s)) eqn:Hfin; [|by left].
  right.
  assert (Hwin : Forall (λ x, ∃ q, x = Fin q ∧ P q) (window w t s)).
  { apply Forall_forall. intros x Hx.
    assert (Hx' : x ∈ s).
    { unfold window in Hx. by apply subseteq_take, subseteq_drop in Hx. }
    rewrite Forall_forall in Hs. apply Hs; [done|].
    rewrite forallb_forall in Hfin. apply Hfin. by apply list_elem_of_In. }
  destruct (mean_Fin (window w t s) w Hw) as (q & Hq & Heq).
  { eapply Forall_impl; [exact Hwin|]. intros x (q & -> & _). by exists q. }
  exists q. split; [exact Hq|].
  apply (Hproper _ _ (Qeq_sym _ _ Heq)). apply Hsum.
  apply Forall_fmap. eapply Forall_impl; [exact Hwin|].
  intros x (q' & -> & Hp). exact Hp.
Qed.

Lemma rsi_gain_sign (series : Series) (t : nat) (g : float) :
  rsi_gain 14 series !! t = Some g →
  g = NaN ∨ ∃ q, g = Fin q ∧ (0 <= q)%Q.
Proof.
  unfold rsi_gain.
  apply (rolling_mean_sign (λ q, (0 <= q)%Q)); [lia| | |].
  - intros l Hl. apply Qdiv_nonneg; [by apply qsum_nonneg|apply of_nat_pos; lia].
  - intros a b Hab Ha. by rewrite <- Hab.
  - unfold where_. apply Forall_fmap, Forall_forall. intros d _. unfold compose.
    destruct (where_gain_entry d) as [-> | (q & -> & Hq)]; [done|].
    intros _. by exists q.
Qed.

Lemma rsi_loss_sign (series : Series) (t : nat) (l : float) :
  rsi_loss 14 series !! t = Some l →
  l = NaN ∨ ∃ q, l = fneg (Fin q) ∧ (q <= 0)%Q.
Proof.
  unfold rsi_loss. rewrite list_lookup_fmap, fmap_Some.
  intros (m & Hm & ->).
  apply (rolling_mean_sign (λ q, (q <= 0)%Q)) in Hm as [-> | (q & -> & Hq)];
    [by left|right; by exists q|lia| | |].
  - intros l Hl. apply Qdiv_nonpos; [by apply qsum_nonpos|apply of_nat_pos; lia].
  - intros a b Hab Ha. by rewrite <- Hab.
  - unfold where_. apply Forall_fmap, Forall_forall. intros d _. unfold compose.
    destruct (where_loss_entry d) as [-> | (q & -> & Hq)]; [done|].
    intros _. by exists q.
Qed.

Lemma rsi_of_rs_neg_inf : rsi_of_rs (Inf true) = Fin 100.
Proof. vm_compute. reflexivity. Qed.

(** The RSI expression on a non-negative average gain [g] and the mean
    [m <= 0] of the negative deltas (the loss is [-m]). *)
Lemma rsi_value (g m : Q) :
  (0 <= g)%Q → (m <= 0)%Q →
  represents (rsi_of_rs (fdiv (Fin g) (fneg (Fin m)))) (rsi_formula g (- m)).
Proof.
  intros Hg Hm. unfold rsi_formula. cbn [fneg].
  destruct (Qeq_bool m 0) eqn:Em; qprop.
  - assert (Hz : Qeq_bool (- m) 0 = true) by (apply Qeq_bool_iff; lra).
    rewrite Hz. cbn [fdiv fis_zero fsign].
    destruct (Qeq_bool g 0) eqn:Eg; qprop; [done|].
    assert (Hs : Qlt_bool g 0 = false) by (apply Qlt_bool_false; lra).
    rewrite Hs. cbn [xorb]. rewrite rsi_of_rs_neg_inf. by split.
  - destruct (Qeq_bool (- m) 0) eqn:Ez; [qprop; lra|]. clear Ez.
    assert (Hl : (0 < Qred (- m))%Q) by (rewrite Qred_correct; lra).
    unfold fin.
    destruct (fdiv_Fin_pos g (Qred (- m)) Hl) as (r & -> & Hr).
    assert (Hr0 : (0 <= r)%Q).
    { rewrite Hr. by apply Qdiv_nonneg. }
    unfold rsi_of_rs, f1, f100. cbn [fadd]. unfold fin.
    assert (Hd : (0 < Qred (1 + r))%Q) by (rewrite Qred_correct; lra).
    destruct (fdiv_Fin_pos 100 (Qred (1 + r)) Hd) as (e & -> & He).
    unfold fsub. cbn [fneg].
    destruct (Qeq_bool e 0) eqn:Ee; qprop.
    + rewrite He in Ee. apply Qdiv_eq_0 in Ee; [lra|done].
    + cbn [fadd]. unfold fin. split; [done|]. cbn [fval].
      rewrite !Qred_correct, He, Qred_correct, Hr, Qred_correct.
      reflexivity.
Qed.


(** Values of the specification's formula lie between 0 and 100. *)
Lemma rsi_formula_range (g l : Q) (x : float) :
  (0 <= g)%Q → (0 <= l)%Q →
  represents x (rsi_formula g l) →
  x = NaN ∨ (is_finite x = true ∧ (0 <= fval x)%Q ∧ (fval x <= 100)%Q).
Proof.
  intros Hg Hl. unfold rsi_formula.
  destruct (Qeq_bool l 0) eqn:E1; qprop.
  - destruct (Qeq_bool g 0) eqn:E2; simpl; [by left|].
    intros [Hfin Hv]. right. rewrite Hv. split_and!; [done|lra|lra].
  - simpl. intros [Hfin Hv]. right. split; [done|].
    assert (Hr : (0 <= g / l)%Q) by (apply Qdiv_nonneg; lra).
    assert (He0 : (0 <= 100 / (1 + g / l))%Q) by (apply Qdiv_nonneg; lra).
    assert (He1 : (100 / (1 + g / l) <= 100)%Q).
    { apply Qle_shift_div_r; [lra|]. lra. }
    rewrite Hv. set (e := (100 / (1 + g / l))%Q) in *. lra.
Qed.

Lemma fneg_Fin_zero (q : Q) : fis_zero (fneg (Fin q)) = true → fneg (Fin q) = NegZero.
Proof.
  cbn [fneg]. destruct (Qeq_bool q 0) eqn:E; [done|].
  unfold fin. cbn [fis_zero]. intros H. qprop.
  rewrite Qred_correct in H. exfalso. apply E. lra.
Qed.

(** C6, as the specification states it, fails in its second half: on 15
    strictly rising closes the rolling loss of the last bar is zero, and
    the RSI there is 100, not NaN. *)
Lemma C6_counterexample :
  rsi_loss 14 (rising 15) !! 14 = Some NegZero ∧
  fis_zero NegZero = true ∧
  calculate_rsi (rising 15) !! 14 = Some (Fin 100) ∧
  isnan (Fin 100) = false.
Proof. vm_compute. done. Qed.

(** C6 (amended): wherever RSI is defined its value lies in [0, 100].
    When the rolling loss is zero, RSI is NaN if the rolling gain is zero
    (or itself undefined) and is 100 if the rolling gain is positive. *)
Theorem C6_rsi_range (series : Series) (t : nat) (x g l : float) :
  calculate_rsi series !! t = Some x →
  rsi_gain 14 series !! t = Some g →
  rsi_loss 14 series !! t = Some l →
  (x = NaN ∨ (is_finite x = true ∧ (0 <= fval x)%Q ∧ (fval x <= 100)%Q)) ∧
  (fis_zero l = true →
     (fis_zero g = true ∨ g = NaN → x = NaN) ∧
     (is_finite g = true → fis_zero g = false → x = Fin 100)).
Proof.
  intros Hx Hg Hl. unfold calculate_rsi in Hx.
  apply lookup_calculate_rsi_window in Hx as (g' & l' & Hg' & Hl' & ->).
  rewrite Hg in Hg'. rewrite Hl in Hl'.
  injection Hg' as <-. injection Hl' as <-.
  destruct (rsi_gain_sign _ _ _ Hg) as [-> | (qg & -> & Hqg)].
  { split; [by left|]. intros _. split; [done|]. done. }
  destruct (rsi_loss_sign _ _ _ Hl) as [-> | (qm & -> & Hqm)].
  { split; [by left|]. done. }
  pose proof (rsi_value qg qm Hqg Hqm) as Hrep.
  split.
  - eapply rsi_formula_range; [exact Hqg| |exact Hrep]. lra.
  - intros Hz. apply fneg_Fin_zero in Hz. rewrite Hz.
    cbn [fdiv fis_zero fsign is_finite]. split.
    + intros [Hg0 | ?]; [|done]. by rewrite Hg0.
    + intros _ Hg0. rewrite Hg0. qprop.
      assert (Hs : Qlt_bool qg 0 = false) by (apply Qlt_bool_false; lra).
      rewrite Hs. cbn [xorb]. apply rsi_of_rs_neg_inf.
Qed.

Lemma C6_rsi_range_witness :
  (Fin 100 = NaN ∨
   (is_finite (Fin 100) = true ∧ (0 <= fval (Fin 100))%Q ∧ (fval (Fin 100) <= 100)%Q)) ∧
  (fis_zero NegZero = true →
     (fis_zero (Fin 1) = true ∨ Fin 1 = NaN → Fin 100 = NaN) ∧
     (is_finite (Fin 1) = true → fis_zero (Fin 1) = false → Fin 100 = Fin 100)).
Proof.
  apply (C6_rsi_range (rising 15) 14 (Fin 100) (Fin 1) NegZero).
  - vm_compute. reflexivity.
  - vm_compute. reflexivity.
  - vm_compute. reflexivity.
Defined.

(* ===================================================================== *)
(** ** [calculate_rsi] against the specification's formula *)
(* ===================================================================== *)

Lemma fsub_finite (a b : float) :
  is_finite a = true → is_finite b = true →
  is_finite (fsub b a) = true ∧ (fval (fsub b a) == fval b - fval a)%Q.
Proof.
  destruct a as [| | |q], b as [| | |p]; try done; intros _ _;
    unfold fsub; cbn [fneg]; try destruct (Qeq_bool q 0) eqn:E; qprop;
    cbn [fadd]; unfold fin; cbn [is_finite fval];
    (split; [done|]); rewrite ?Qred_correct; lra.
Qed.

Lemma where_gain_val (d : float) :
  is_finite d = true →
  ∃ q, (if fgt d f0 then d else f0) = Fin q ∧ (q == Qmax (fval d) 0)%Q.
Proof.
  unfold fgt, f0. destruct d as [| | |q]; try done; intros _; cbn [flt fval].
  - exists 0%Q. split; [done|]. by rewrite Q.max_l.
  - destruct (Qlt_bool 0 q) eqn:E; qprop.
    + exists q. split; [done|]. rewrite Q.max_l; [done|lra].
    + exists 0%Q. split; [done|]. rewrite Q.max_r; [done|lra].
Qed.

Lemma where_loss_val (d : float) :
  is_finite d = true →
  ∃ q, (if flt d f0 then d else f0) = Fin q ∧ (q == - Qmax (- fval d) 0)%Q.
Proof.
  unfold f0. destruct d as [| | |q]; try done; intros _; cbn [flt fval].
  - exists 0%Q. split; [done|]. by rewrite Q.max_l.
  - destruct (Qlt_bool q 0) eqn:E; qprop.
    + exists q. split; [done|]. rewrite Q.max_l; [ring|lra].
    + exists 0%Q. split; [done|]. rewrite Q.max_r; [ring|lra].
Qed.

Lemma nth_fval (close : Series) (i : nat) (a : float) :
  close !! i = Some a → nth i (fval <$> close) 0%Q = fval a.
Proof.
  intros Ha. by rewrite nth_lookup, list_lookup_fmap, Ha.
Qed.

Lemma spec_delta_fval (close : Series) (j : nat) (a b : float) :
  close !! j = Some a → close !! S j = Some b →
  spec_delta (fval <$> close) (S j) = (fval b - fval a)%Q.
Proof.
  intros Ha Hb. unfold spec_delta.
  replace (S j - 1) with j by lia.
  by rewrite (nth_fval _ _ _ Ha), (nth_fval _ _ _ Hb).
Qed.

(** Entries of the series of gains: the first is 0, the others are
    max(delta, 0). *)
Lemma gain_where_lookup (close : Series) (i : nat) :
  Forall (λ x, is_finite x = true) close → i < length close →
  ∃ q, where_ (λ d, fgt d f0) f0 (diff close) !! i = Some (Fin q) ∧
       (q == padded_gain (fval <$> close) i)%Q.
Proof.
  intros Hfin Hi. rewrite lookup_where. destruct i as [|j].
  - rewrite lookup_diff_0 by done. exists 0%Q. done.
  - destruct (lookup_lt_is_Some_2 close j) as [a Ha]; [lia|].
    destruct (lookup_lt_is_Some_2 close (S j)) as [b Hb]; [lia|].
    rewrite (lookup_diff_S _ _ _ _ Ha Hb). cbn [fmap option_fmap option_map].
    rewrite Forall_lookup in Hfin.
    destruct (fsub_finite a b (Hfin _ _ Ha) (Hfin _ _ Hb)) as [Hd Hv].
    destruct (where_gain_val _ Hd) as (q & -> & Hq).
    exists q. split; [done|].
    unfold padded_gain, spec_gain.
    by rewrite (spec_delta_fval _ _ _ _ Ha Hb), Hq, Hv.
Qed.

(** Entries of the series of (negative) losses: the first is 0, the
    others are min(delta, 0) = - max(-delta, 0). *)
Lemma loss_where_lookup (close : Series) (i : nat) :
  Forall (λ x, is_finite x = true) close → i < length close →
  ∃ q, where_ (λ d, flt d f0) f0 (diff close) !! i = Some (Fin q) ∧
       (q == - padded_loss (fval <$> close) i)%Q.
Proof.
  intros Hfin Hi. rewrite lookup_where. destruct i as [|j].
  - rewrite lookup_diff_0 by done. exists 0%Q. done.
  - destruct (lookup_lt_is_Some_2 close j) as [a Ha]; [lia|].
    destruct (lookup_lt_is_Some_2 close (S j)) as [b Hb]; [lia|].
    rewrite (lookup_diff_S _ _ _ _ Ha Hb). cbn [fmap option_fmap option_map].
    rewrite Forall_lookup in Hfin.
    destruct (fsub_finite a b (Hfin _ _ Ha) (Hfin _ _ Hb)) as [Hd Hv].
    destruct (where_loss_val _ Hd) as (q & -> & Hq).
    exists q. split; [done|].
    unfold padded_loss, spec_loss.
    by rewrite (spec_delta_fval _ _ _ _ Ha Hb), Hq, Hv.
Qed.

Lemma qsum_window (s : Series) (f : nat → Q) (n k : nat) :
  (∀ i, k ≤ i < k + n → ∃ x, s !! i = Some x ∧ (fval x == f i)%Q) →
  (qsum (fval <$> take n (drop k s)) == qsum (f <$> seq k n))%Q.
Proof.
  revert k. induction n as [|n IH]; intros k H.
  - by rewrite take_0.
  - destruct (H k) as (x & Hx & Hv); [lia|].
    rewrite (drop_S _ _ _ Hx). cbn [take seq].
    rewrite !fmap_cons, !qsum_cons, Hv, IH; [done|].
    intros i Hi. apply H. lia.
Qed.

Lemma qsum_opp (f : nat → Q) (l : list nat) :
  (qsum ((λ i, - f i)%Q <$> l) == - qsum (f <$> l))%Q.
Proof.
  induction l as [|i l IH]; [by rewrite !fmap_nil, !qsum_nil|].
  rewrite !fmap_cons, !qsum_cons, IH. ring.
Qed.

(** The rolling mean of a series of finite entries, past the warm-up. *)
Lemma rolling_mean_exact (w t : nat) (s : Series) (f : nat → Q) :
  0 < w → w ≤ S t → t < length s →
  (∀ i, i < length s → ∃ q, s !! i = Some (Fin q) ∧ (q == f i)%Q) →
  ∃ m, rolling_mean w s !! t = Some (Fin m) ∧ (m == trailing_avg f w t)%Q.
Proof.
  intros Hw Hwt Ht Hs.
  assert (Hwin : Forall (λ x, ∃ q, x = Fin q) (window w t s)).
  { apply Forall_forall. intros x Hx.
    assert (Hx' : x ∈ s).
    { unfold window in Hx. by apply subseteq_take, subseteq_drop in Hx. }
    apply list_elem_of_lookup in Hx' as [i Hi].
    destruct (Hs i (lookup_lt_Some _ _ _ Hi)) as (q & Hq & _).
    exists q. congruence. }
  assert (Hfin : forallb is_finite (window w t s) = true).
  { apply forallb_forall. intros x Hx%list_elem_of_In.
    rewrite Forall_forall in Hwin. by destruct (Hwin x Hx) as [q ->]. }
  destruct (mean_Fin _ w Hw Hwin) as (m & Hm & Heq).
  exists m. split.
  - rewrite lookup_rolling_mean by done.
    rewrite decide_False by lia. by rewrite Hfin, Hm.
  - rewrite Heq. unfold trailing_avg, window.
    rewrite (qsum_window s f); [done|].
    intros i Hi. destruct (Hs i) as (q & Hq & Hv); [lia|].
    exists (Fin q). done.
Qed.



Lemma trailing_avg_opp (f : nat → Q) (w t : nat) :
  (trailing_avg (λ i, - f i)%Q w t == - trailing_avg f w t)%Q.
Proof.
  unfold trailing_avg. rewrite qsum_opp.
  unfold Qdiv. ring.
Qed.


Lemma padded_gain_nonneg (close : list Q) (i : nat) : (0 <= padded_gain close i)%Q.
Proof. destruct i; simpl; [lra|]. apply Q.le_max_r. Qed.

Lemma padded_loss_nonneg (close : list Q) (i : nat) : (0 <= padded_loss close i)%Q.
Proof. destruct i; simpl; [lra|]. apply Q.le_max_r. Qed.





(* ===================================================================== *)
(** ** Further properties of the screening pass *)
(* ===================================================================== *)

Lemma run_screener_loop_state (up : Upstream) (c : gmap string (Info * History))
    (selected_tickers plot_tickers : list string) (max_pe min_roe : float) :
  let r := run_screener up c selected_tickers plot_tickers max_pe min_roe in
  let st := screen_loop up c selected_tickers plot_tickers in
  cache (final_state r) = cache st ∧
  trace (final_state r) =
    trace st ++
    (if decide (fullTable r = []) then []
     else [EvExport "exports/all_results.xlsx";
           EvExport "exports/filtered_results.xlsx"]).
Proof.
  unfold run_screener, screen_loop, final_state, fullTable. simpl.
  destruct (summary_data _) eqn:E; simpl.
  - by rewrite app_nil_r.
  - done.
Qed.

(** One iteration: the local events follow what was there, the upstream
    request (if any) in between. *)
Lemma screen_ticker_local_trace (up : Upstream) (plot_tickers : list string)
    (st : State) (ticker : string) :
  List.filter (λ e, negb (is_upstream e)) (trace (screen_ticker up plot_tickers st ticker)) =
  List.filter (λ e, negb (is_upstream e)) (trace st) ++
    local_events plot_tickers ticker (fetched up (cache st) ticker).
Proof.
  rewrite <- fetch_stock_bundle_result. unfold screen_ticker.
  destruct (fetch_stock_bundle up ticker (cache st)) as [[res c'] evs] eqn:Hf.
  assert (Hevs : List.filter (λ e, negb (is_upstream e)) evs = []).
  { revert Hf. unfold fetch_stock_bundle.
    destruct (cache st !! ticker) as [[??]|]; [|destruct (up ticker)];
      by intros [= <- <- <-]. }
  cbn [fst]. destruct res as [|info data].
  - simpl. by rewrite !List.filter_app, Hevs.
  - unfold local_events, row_of.
    destruct (trailingPE info) as [pe|]; [|simpl; by rewrite List.filter_app, Hevs, app_nil_r].
    destruct (returnOnEquity info) as [roe|]; [|simpl; by rewrite List.filter_app, Hevs, app_nil_r].
    destruct data as [|b data]; [simpl; by rewrite List.filter_app, Hevs, app_nil_r|].
    destruct (last_add_indicators (b :: data)) as (?&?&?&?&_&_&_&_&Hlast); [done|].
    rewrite Hlast. simpl trace.
    rewrite !List.filter_app, Hevs. simpl.
    by case_bool_decide.
Qed.

Lemma screen_loop_local_trace (up : Upstream) (plot_tickers tickers : list string)
    (st : State) :
  List.filter (λ e, negb (is_upstream e))
    (trace (foldl (screen_ticker up plot_tickers) st tickers)) =
  List.filter (λ e, negb (is_upstream e)) (trace st) ++
    concat ((λ t, local_events plot_tickers t (fetched up (cache st) t)) <$> tickers).
Proof.
  revert st. induction tickers as [|t tickers IH]; intros st.
  - simpl. by rewrite app_nil_r.
  - simpl. rewrite IH, screen_ticker_local_trace, <- app_assoc. do 2 f_equal.
    f_equal. apply list_fmap_ext. intros i x _.
    by rewrite screen_ticker_cache.
Qed.



Lemma filter_filter_implied {A} (f g : A → bool) (l : list A) :
  (∀ x, f x = true → g x = true) →
  List.filter f (List.filter g l) = List.filter f l.
Proof.
  intros Hfg. induction l as [|x l IH]; [done|]. simpl.
  destruct (g x) eqn:Hg; simpl.
  - by rewrite IH.
  - destruct (f x) eqn:Hf; [|done]. apply Hfg in Hf. congruence.
Qed.

Lemma local_trace_run (up : Upstream) (c : gmap string (Info * History))
    (selected_tickers plot_tickers : list string) :
  List.filter (λ e, negb (is_upstream e))
    (trace (screen_loop up c selected_tickers plot_tickers)) =
  concat ((λ t, local_events plot_tickers t (fetched up c t)) <$> selected_tickers).
Proof.
  unfold screen_loop. by rewrite screen_loop_local_trace.
Qed.






Lemma local_events_no_export (plot_tickers tickers : list string)
    (f : string → FetchResult) :
  List.filter is_export
    (concat ((λ t, local_events plot_tickers t (f t)) <$> tickers)) = [].
Proof.
  induction tickers as [|t l IH]; [done|].
  csimpl. rewrite List.filter_app, IH, app_nil_r.
  unfold local_events. destruct (f t) as [|info data]; [done|].
  destruct (row_of t (Bundle info data)); [|done].
  simpl. by case_bool_decide.
Qed.

(** X5: the two spreadsheets are written exactly when [fullTable] is not
    empty, once each, all results first, after every per-ticker effect of
    the pass; with no row nothing is written. *)
Theorem exports_iff_rows (up : Upstream) (c : gmap string (Info * History))
    (selected_tickers plot_tickers : list string) (max_pe min_roe : float) :
  let r := run_screener up c selected_tickers plot_tickers max_pe min_roe in
  let exports := if decide (fullTable r = []) then []
                 else [EvExport "exports/all_results.xlsx";
                       EvExport "exports/filtered_results.xlsx"] in
  trace (final_state r) =
    trace (screen_loop up c selected_tickers plot_tickers) ++ exports ∧
  List.filter is_export (trace (screen_loop up c selected_tickers plot_tickers)) = [] ∧
  List.filter is_export (trace (final_state r)) = exports.
Proof.
  intros r exports. subst r exports.
  destruct (run_screener_loop_state up c selected_tickers plot_tickers max_pe min_roe)
    as [_ Htr].
  assert (Hloop : List.filter is_export
                    (trace (screen_loop up c selected_tickers plot_tickers)) = []).
  { rewrite <- (filter_filter_implied is_export (λ e, negb (is_upstream e)))
      by (by intros []).
    rewrite local_trace_run. apply local_events_no_export. }
  split_and!; [done|done|].
  rewrite Htr, List.filter_app, Hloop. simpl. by case_decide.
Qed.







(* ===================================================================== *)
(** ** The signal filter of the dashboard *)
(* ===================================================================== *)





(* ===================================================================== *)
(** ** RSI on rising, falling and flat prices *)
(* ===================================================================== *)

(** The value [calculate_rsi] computes from the 14th bar on, with the two
    rolling means made explicit. *)
Lemma calculate_rsi_form (close : Series) (t : nat) :
  Forall (λ x, is_finite x = true) close → 13 ≤ t → t < length close →
  ∃ qg qm,
    calculate_rsi close !! t = Some (rsi_of_rs (fdiv (Fin qg) (fneg (Fin qm)))) ∧
    (qg == trailing_avg (padded_gain (fval <$> close)) 14 t)%Q ∧
    (qm == - trailing_avg (padded_loss (fval <$> close)) 14 t)%Q.
Proof.
  intros Hfin H13 Ht.
  set (qs := fval <$> close).
  destruct (rolling_mean_exact 14 t
              (where_ (λ d, fgt d f0) f0 (diff close)) (padded_gain qs))
    as (qg & Hg & Hqg); [lia|lia|by rewrite length_where, length_diff| |].
  { intros i Hi. rewrite length_where, length_diff in Hi.
    by apply gain_where_lookup. }
  destruct (rolling_mean_exact 14 t
              (where_ (λ d, flt d f0) f0 (diff close))
              (λ i, - padded_loss qs i)%Q)
    as (qm & Hm & Hqm); [lia|lia|by rewrite length_where, length_diff| |].
  { intros i Hi. rewrite length_where, length_diff in Hi.
    by apply loss_where_lookup. }
  rewrite trailing_avg_opp in Hqm.
  exists qg, qm. split_and!; [|done|done].
  unfold calculate_rsi. apply lookup_calculate_rsi_window.
  exists (Fin qg), (fneg (Fin qm)). split_and!; [exact Hg| |done].
  unfold rsi_loss. by rewrite list_lookup_fmap, Hm.
Qed.

Lemma qsum_seq_zero (f : nat → Q) (n k : nat) :
  (∀ i, k ≤ i < k + n → (f i == 0)%Q) → (qsum (f <$> seq k n) == 0)%Q.
Proof.
  revert k. induction n as [|n IH]; intros k H; [done|].
  cbn [seq]. rewrite fmap_cons, qsum_cons, H, IH by (intros; apply H || idtac; lia).
  ring.
Qed.

Lemma qsum_seq_pos (f : nat → Q) (n k j : nat) :
  (∀ i, (0 <= f i)%Q) → k ≤ j < k + n → (0 < f j)%Q →
  (0 < qsum (f <$> seq k n))%Q.
Proof.
  intros Hf. revert k. induction n as [|n IH]; intros k Hj Hpos; [lia|].
  cbn [seq]. rewrite fmap_cons, qsum_cons.
  destruct (decide (j = k)) as [->|Hne].
  - assert (H0 : (0 <= qsum (f <$> seq (S k) n))%Q).
    { apply qsum_nonneg, Forall_fmap, Forall_forall. intros i _. apply Hf. }
    lra.
  - pose proof (Hf k). pose proof (IH (S k) ltac:(lia) Hpos). lra.
Qed.

Lemma Qdiv_pos (a b : Q) : (0 < a)%Q → (0 < b)%Q → (0 < a / b)%Q.
Proof. intros Ha Hb. apply Qlt_shift_div_l; [done|]. lra. Qed.

Lemma trailing_avg_zero (f : nat → Q) (w t : nat) :
  (∀ i, S t - w ≤ i < S t - w + w → (f i == 0)%Q) →
  (trailing_avg f w t == 0)%Q.
Proof.
  intros H. unfold trailing_avg. rewrite qsum_seq_zero by done.
  unfold Qdiv. ring.
Qed.

Lemma trailing_avg_pos (f : nat → Q) (w t j : nat) :
  0 < w → (∀ i, (0 <= f i)%Q) → S t - w ≤ j < S t - w + w → (0 < f j)%Q →
  (0 < trailing_avg f w t)%Q.
Proof.
  intros Hw Hf Hj Hpos. unfold trailing_avg.
  apply Qdiv_pos; [by eapply qsum_seq_pos|by apply of_nat_pos].
Qed.

Lemma padded_loss_zero (qs : list Q) (i : nat) :
  (1 ≤ i → (0 <= spec_delta qs i)%Q) → (padded_loss qs i == 0)%Q.
Proof.
  destruct i as [|i]; [done|]. intros H. simpl. unfold spec_loss.
  apply Q.max_r. specialize (H ltac:(lia)). lra.
Qed.

Lemma padded_gain_zero (qs : list Q) (i : nat) :
  (1 ≤ i → (spec_delta qs i <= 0)%Q) → (padded_gain qs i == 0)%Q.
Proof.
  destruct i as [|i]; [done|]. intros H. simpl. unfold spec_gain.
  apply Q.max_r. specialize (H ltac:(lia)). lra.
Qed.

Lemma padded_gain_pos (qs : list Q) (j : nat) :
  1 ≤ j → (0 < spec_delta qs j)%Q → (0 < padded_gain qs j)%Q.
Proof.
  destruct j as [|j]; [lia|]. intros _ H. simpl. unfold spec_gain.
  rewrite Q.max_l; lra.
Qed.

Lemma padded_loss_pos (qs : list Q) (j : nat) :
  1 ≤ j → (spec_delta qs j < 0)%Q → (0 < padded_loss qs j)%Q.
Proof.
  destruct j as [|j]; [lia|]. intros _ H. simpl. unfold spec_loss.
  rewrite Q.max_l; lra.
Qed.

Lemma rsi_of_rs_zero : rsi_of_rs (Fin 0) = Fin 0.
Proof. vm_compute. reflexivity. Qed.

Lemma rsi_monotone_cases (close : Series) (t : nat) :
  Forall (λ x, is_finite x = true) close →
  13 ≤ t → t < length close →
  let delta := spec_delta (fval <$> close) in
  let in_window i := S t - 14 ≤ i ≤ t ∧ 1 ≤ i in
  ((∀ i, in_window i → (0 <= delta i)%Q) →
   (∃ j, in_window j ∧ (0 < delta j)%Q) →
   calculate_rsi close !! t = Some (Fin 100)) ∧
  ((∀ i, in_window i → (delta i <= 0)%Q) →
   (∃ j, in_window j ∧ (delta j < 0)%Q) →
   calculate_rsi close !! t = Some (Fin 0)) ∧
  ((∀ i, in_window i → (delta i == 0)%Q) →
   calculate_rsi close !! t = Some NaN).
Proof.
  intros Hfin H13 Ht delta in_window. subst delta in_window.
  destruct (calculate_rsi_form close t Hfin H13 Ht) as (qg & qm & -> & Hqg & Hqm).
  set (qs := fval <$> close) in *.
  split_and!.
  - intros Hup (j & [Hj Hj1] & Hpos).
    assert (HL : (qm == 0)%Q).
    { rewrite Hqm, trailing_avg_zero; [ring|].
      intros i Hi. apply padded_loss_zero. intros Hi1. apply Hup. lia. }
    assert (HG : (0 < qg)%Q).
    { rewrite Hqg. apply (trailing_avg_pos _ 14 t j); [lia| |lia|].
      - apply padded_gain_nonneg.
      - by apply padded_gain_pos. }
    cbn [fneg]. apply Qeq_bool_iff in HL. rewrite HL.
    cbn [fdiv fis_zero fsign].
    destruct (Qeq_bool qg 0) eqn:Eg; [qprop; lra|].
    assert (Hs : Qlt_bool qg 0 = false) by (apply Qlt_bool_false; lra).
    rewrite Hs. cbn [xorb]. by rewrite rsi_of_rs_neg_inf.
  - intros Hdown (j & [Hj Hj1] & Hneg).
    assert (HG : (qg == 0)%Q).
    { rewrite Hqg, trailing_avg_zero; [done|].
      intros i Hi. apply padded_gain_zero. intros Hi1. apply Hdown. lia. }
    assert (HL : (qm < 0)%Q).
    { rewrite Hqm.
      pose proof (trailing_avg_pos (padded_loss qs) 14 t j ltac:(lia)
                    (padded_loss_nonneg qs) ltac:(lia)
                    (padded_loss_pos qs j Hj1 Hneg)). lra. }
    cbn [fneg]. destruct (Qeq_bool qm 0) eqn:Em; [qprop; lra|].
    unfold fin. cbn [fdiv fis_zero fsign fval].
    assert (Hl : (0 < Qred (- qm))%Q) by (rewrite Qred_correct; lra).
    destruct (Qeq_bool (Qred (- qm)) 0) eqn:El; [qprop; lra|].
    assert (Hq : Qeq_bool (qg / Qred (- qm)) 0 = true).
    { apply Qeq_bool_iff. rewrite HG. unfold Qdiv. ring. }
    rewrite Hq.
    assert (Hs1 : Qlt_bool qg 0 = false) by (apply Qlt_bool_false; lra).
    assert (Hs2 : Qlt_bool (Qred (- qm)) 0 = false) by (apply Qlt_bool_false; lra).
    rewrite Hs1, Hs2. cbn [xorb zero]. by rewrite rsi_of_rs_zero.
  - intros Hflat.
    assert (HG : (qg == 0)%Q).
    { rewrite Hqg, trailing_avg_zero; [done|].
      intros i Hi. apply padded_gain_zero. intros Hi1.
      rewrite Hflat by lia. lra. }
    assert (HL : (qm == 0)%Q).
    { rewrite Hqm, trailing_avg_zero; [ring|].
      intros i Hi. apply padded_loss_zero. intros Hi1.
      rewrite Hflat by lia. lra. }
    cbn [fneg]. apply Qeq_bool_iff in HL, HG. rewrite HL.
    cbn [fdiv fis_zero]. by rewrite HG.
Qed.






(** X11: prices that do not move over the 14 bars ending at [t] give an
    undefined RSI (NaN) at [t], and hence the signal Hold whatever the
    close and the SMA20. *)
Theorem rsi_flat_prices (close : Series) (t : nat) :
  Forall (λ x, is_finite x = true) close →
  13 ≤ t → t < length close →
  (∀ i, S t - 14 ≤ i ≤ t → 1 ≤ i → (spec_delta (fval <$> close) i == 0)%Q) →
  calculate_rsi close !! t = Some NaN ∧
  ∀ c sma20, signal_of NaN c sma20 = "Hold".
Proof.
  intros Hfin H13 Ht Hflat.
  destruct (rsi_monotone_cases close t Hfin H13 Ht) as (_ & _ & H).
  split.
  - apply H. intros i [? ?]. by apply Hflat.
  - intros c sma20. apply signal_of_undefined. by left.
Qed.

Lemma rsi_flat_prices_witness :
  calculate_rsi (flat 15) !! 14 = Some NaN ∧
  ∀ c sma20, signal_of NaN c sma20 = "Hold".
Proof.
  apply (rsi_flat_prices (flat 15) 14).
  - apply Forall_forall. intros x Hx.
    apply list_elem_of_fmap in Hx as (z & -> & _). reflexivity.
  - lia.
  - vm_compute. lia.
  - intros i Hi Hi1.
    do 15 (destruct i as [|i]; [try lia; by vm_compute|]). lia.
Defined.

(* ===================================================================== *)
(** ** Rolling means of finite series: SMA20 and the volume average *)
(* ===================================================================== *)

Lemma foldl_fadd_finite (l : list float) (a : Q) :
  Forall (λ x, is_finite x = true) l →
  ∃ s, foldl fadd (Fin a) l = Fin s ∧ (s == a + qsum (fval <$> l))%Q.
Proof.
  revert a. induction l as [|x l IH]; intros a Hl.
  - exists a. split; [done|]. rewrite fmap_nil, qsum_nil. ring.
  - apply Forall_cons in Hl as [Hx Hl].
    destruct x as [| | |q]; try done.
    + destruct (IH (Qred a) Hl) as (s & Hs & Heq).
      exists s. split; [exact Hs|].
      rewrite Heq, Qred_correct, fmap_cons, qsum_cons.
      change (fval NegZero) with 0%Q. ring.
    + destruct (IH (Qred (a + q)) Hl) as (s & Hs & Heq).
      exists s. split; [exact Hs|].
      rewrite Heq, Qred_correct, fmap_cons, qsum_cons.
      change (fval (Fin q)) with q. ring.
Qed.

Lemma mean_finite (l : list float) (w : nat) :
  0 < w → Forall (λ x, is_finite x = true) l →
  ∃ m, fdiv (fsum l) (of_nat w) = Fin m ∧
       (m == qsum (fval <$> l) / inject_Z (Z.of_nat w))%Q.
Proof.
  intros Hw Hl. destruct (foldl_fadd_finite l 0 Hl) as (s & Hs & Heq).
  unfold fsum, f0. rewrite Hs.
  destruct (fdiv_Fin_pos s (inject_Z (Z.of_nat w)) (of_nat_pos w Hw)) as (m & Hm & Hmq).
  exists m. split; [exact Hm|]. rewrite Hmq, Heq.
  unfold Qdiv. ring.
Qed.

(** Past the warm-up, the rolling mean of a finite series is the exact
    mean of its window. *)
Lemma rolling_mean_finite (w t : nat) (s : Series) :
  0 < w → w ≤ S t → t < length s →
  Forall (λ x, is_finite x = true) s →
  ∃ m, rolling_mean w s !! t = Some (Fin m) ∧
       (m == qsum (fval <$> window w t s) / inject_Z (Z.of_nat w))%Q.
Proof.
  intros Hw Hwt Ht Hs.
  assert (Hwin : Forall (λ x, is_finite x = true) (window w t s)).
  { unfold window. by apply Forall_take, Forall_drop. }
  assert (Hfin : forallb is_finite (window w t s) = true).
  { apply forallb_forall. intros x Hx%list_elem_of_In.
    rewrite Forall_forall in Hwin. by apply Hwin. }
  destruct (mean_finite _ w Hw Hwin) as (m & Hm & Heq).
  exists m. split; [|done].
  rewrite lookup_rolling_mean by done.
  rewrite decide_False by lia. by rewrite Hfin, Hm.
Qed.

Lemma flt_finite (x y : float) :
  is_finite x = true → is_finite y = true →
  flt x y = Qlt_bool (fval x) (fval y).
Proof. by destruct x, y. Qed.





(* ===================================================================== *)
(** ** Trending prices give no signal *)
(* ===================================================================== *)

Lemma qsum_le_bound (l : list Q) (c : Q) :
  Forall (λ q, (q <= c)%Q) l → (qsum l <= inject_Z (Z.of_nat (length l)) * c)%Q.
Proof.
  induction 1 as [|q l Hq _ IH].
  - rewrite qsum_nil. change (inject_Z (Z.of_nat (length (@nil Q)))) with 0%Q. lra.
  - rewrite qsum_cons. cbn [length]. rewrite Nat2Z.inj_succ, <- Z.add_1_r, inject_Z_plus.
    change (inject_Z 1) with 1%Q. lra.
Qed.

Lemma qsum_ge_bound (l : list Q) (c : Q) :
  Forall (λ q, (c <= q)%Q) l → (inject_Z (Z.of_nat (length l)) * c <= qsum l)%Q.
Proof.
  induction 1 as [|q l Hq _ IH].
  - rewrite qsum_nil. change (inject_Z (Z.of_nat (length (@nil Q)))) with 0%Q. lra.
  - rewrite qsum_cons. cbn [length]. rewrite Nat2Z.inj_succ, <- Z.add_1_r, inject_Z_plus.
    change (inject_Z 1) with 1%Q. lra.
Qed.

Lemma chain_le (qs : list Q) (k n : nat) :
  (∀ i, k ≤ i → S i < n → (nth i qs 0 <= nth (S i) qs 0)%Q) →
  ∀ d i, k ≤ i → i + d = n - 1 → 0 < n → (nth i qs 0 <= nth (n - 1) qs 0)%Q.
Proof.
  intros H. induction d as [|d IH]; intros i Hk Hd Hn.
  - replace (n - 1) with i by lia. lra.
  - specialize (H i Hk ltac:(lia)).
    specialize (IH (S i) ltac:(lia) ltac:(lia) Hn). lra.
Qed.

Lemma chain_ge (qs : list Q) (k n : nat) :
  (∀ i, k ≤ i → S i < n → (nth (S i) qs 0 <= nth i qs 0)%Q) →
  ∀ d i, k ≤ i → i + d = n - 1 → 0 < n → (nth (n - 1) qs 0 <= nth i qs 0)%Q.
Proof.
  intros H. induction d as [|d IH]; intros i Hk Hd Hn.
  - replace (n - 1) with i by lia. lra.
  - specialize (H i Hk ltac:(lia)).
    specialize (IH (S i) ltac:(lia) ltac:(lia) Hn). lra.
Qed.

(** The values in the 20-bar window, as exact numbers. *)
Lemma window_values (close : Series) (t : nat) (P : Q → Prop) :
  19 ≤ t → t < length close →
  (∀ i, t - 19 ≤ i ≤ t → P (nth i (fval <$> close) 0%Q)) →
  Forall P (fval <$> window 20 t close).
Proof.
  intros H19 Ht HP. apply Forall_fmap, Forall_lookup. intros j x Hx.
  pose proof (lookup_lt_Some _ _ _ Hx) as Hj.
  rewrite length_window in Hj by lia.
  rewrite lookup_window in Hx by done.
  unfold compose. rewrite <- (nth_fval _ _ _ Hx). apply HP. lia.
Qed.

Lemma spec_delta_S (qs : list Q) (i : nat) :
  spec_delta qs (S i) = (nth (S i) qs 0 - nth i qs 0)%Q.
Proof. unfold spec_delta. by replace (S i - 1) with i by lia. Qed.

(** The last row of a frame of at least 20 finite bars whose closes rise
    (or fall) at every step of the last 20 bars. *)
Lemma trend_last_row (data : History) (last_row : IndicatorBar) :
  let qs := fval <$> (Close <$> data) in
  let n := length data in
  20 ≤ n →
  Forall (λ x, is_finite x = true) (Close <$> data) →
  (∀ i, n - 20 ≤ i → S i < n → (nth i qs 0 < nth (S i) qs 0)%Q) ∨
  (∀ i, n - 20 ≤ i → S i < n → (nth (S i) qs 0 < nth i qs 0)%Q) →
  last (add_indicators data) = Some last_row →
  signal_of (ib_RSI last_row) (ib_Close last_row) (ib_SMA20 last_row) = "Hold".
Proof.
  intros qs n Hn Hfin Htrend Hlast.
  rewrite last_lookup, length_add_indicators in Hlast.
  apply lookup_add_indicators in Hlast as (b & r & s & k & Hb & Hr & Hs & _ & ->).
  cbn [ib_RSI ib_Close ib_SMA20].
  set (close := Close <$> data) in *.
  assert (Hlen : length close = n) by (unfold close; by rewrite length_fmap).
  set (t := pred (length data)) in *.
  assert (Ht : t = n - 1) by (unfold t, n; lia).
  assert (Hc : close !! t = Some (Close b)).
  { unfold close. by rewrite list_lookup_fmap, Hb. }
  assert (Hcfin : is_finite (Close b) = true).
  { rewrite Forall_lookup in Hfin. by eapply Hfin. }
  destruct (rolling_mean_finite 20 t close ltac:(lia) ltac:(lia) ltac:(lia) Hfin)
    as (m & Hm & Hmq).
  rewrite Hm in Hs. injection Hs as <-.
  change (inject_Z (Z.of_nat 20)) with 20%Q in Hmq.
  assert (Hwlen : inject_Z (Z.of_nat (length (fval <$> window 20 t close))) = 20%Q).
  { rewrite length_fmap, length_window by lia. done. }
  assert (Hsum : (20 * m == qsum (fval <$> window 20 t close))%Q).
  { rewrite Hmq. field. }
  assert (Hlastq : nth (n - 1) qs 0%Q = fval (Close b)).
  { rewrite <- Ht. by apply nth_fval. }
  destruct (rsi_monotone_cases close t Hfin ltac:(lia) ltac:(lia)) as (Hrise & Hfall & _).
  unfold signal_of. destruct Htrend as [Hup | Hdown].
  - rewrite Hrise in Hr.
    + injection Hr as <-.
      assert (Hle : (qsum (fval <$> window 20 t close) <= 20 * fval (Close b))%Q).
      { rewrite <- Hwlen. apply qsum_le_bound, window_values; [lia|lia|].
        intros i Hi. rewrite <- Hlastq.
        apply (chain_le qs (n - 20) n) with (d := n - 1 - i); try lia.
        intros j Hj1 Hj2. specialize (Hup j Hj1 Hj2). lra. }
      assert (Hsell : flt (Close b) (Fin m) = false).
      { rewrite flt_finite by done. apply Qlt_bool_false. simpl. lra. }
      rewrite Hsell. by rewrite andb_false_r.
    + intros i [Hi Hi1]. destruct i as [|i]; [lia|].
      rewrite spec_delta_S. specialize (Hup i ltac:(lia) ltac:(lia)).
      fold close in Hup. fold qs. lra.
    + exists t. split; [lia|]. destruct t as [|t']; [lia|].
      rewrite spec_delta_S. specialize (Hup t' ltac:(lia) ltac:(lia)).
      fold qs. lra.
  - rewrite Hfall in Hr.
    + injection Hr as <-.
      assert (Hge : (20 * fval (Close b) <= qsum (fval <$> window 20 t close))%Q).
      { rewrite <- Hwlen. apply qsum_ge_bound, window_values; [lia|lia|].
        intros i Hi. rewrite <- Hlastq.
        apply (chain_ge qs (n - 20) n) with (d := n - 1 - i); try lia.
        intros j Hj1 Hj2. specialize (Hdown j Hj1 Hj2). lra. }
      assert (Hbuy : fgt (Close b) (Fin m) = false).
      { unfold fgt. rewrite flt_finite by done. apply Qlt_bool_false. simpl. lra. }
      rewrite Hbuy. by rewrite andb_false_r.
    + intros i [Hi Hi1]. destruct i as [|i]; [lia|].
      rewrite spec_delta_S. specialize (Hdown i ltac:(lia) ltac:(lia)).
      fold qs. lra.
    + exists t. split; [lia|]. destruct t as [|t']; [lia|].
      rewrite spec_delta_S. specialize (Hdown t' ltac:(lia) ltac:(lia)).
      fold qs. lra.
Qed.

(** X13: a ticker whose closes (finite, at least 20 bars) rise at every
    step of the last 20 bars, or fall at every step of them, gets the
    signal Hold: on a steady rise RSI is 100 and the close is not below
    its SMA20; on a steady fall RSI is 0 and the close is not above it. *)
Theorem trend_gives_hold (up : Upstream) (c : gmap string (Info * History))
    (selected_tickers plot_tickers : list string) (max_pe min_roe : float)
    (row : Row) (info : Info) (data : History) :
  let qs := fval <$> (Close <$> data) in
  let n := length data in
  row ∈ fullTable (run_screener up c selected_tickers plot_tickers max_pe min_roe) →
  fetched up c (Ticker row) = Bundle info data →
  20 ≤ n →
  Forall (λ x, is_finite x = true) (Close <$> data) →
  (∀ i, n - 20 ≤ i → S i < n → (nth i qs 0 < nth (S i) qs 0)%Q) ∨
  (∀ i, n - 20 ≤ i → S i < n → (nth (S i) qs 0 < nth i qs 0)%Q) →
  Signal row = "Hold".
Proof.
  intros qs n Hrow Hf Hn Hfin Htrend.
  rewrite run_screener_fullTable in Hrow.
  apply list_elem_of_omap in Hrow as (t & _ & Hrow).
  apply row_of_Ticker in Hrow as Heq. subst t. rewrite Hf in Hrow.
  apply row_of_inv in Hrow as (pe & roe & lr & _ & _ & Hlr & ->).
  cbn [Signal make_row]. by eapply trend_last_row.
Qed.

Lemma trend_gives_hold_witness :
  Signal {| Ticker := "LONG"; PE_Ratio := Fin 10; ROE_pct := Fin 20;
            RSI := Fin 100; Volume_Spike_Today := "No"; Signal := "Hold" |} = "Hold".
Proof.
  apply (trend_gives_hold demo_upstream ∅ ["LONG"] [] default_max_pe default_min_roe
           {| Ticker := "LONG"; PE_Ratio := Fin 10; ROE_pct := Fin 20;
              RSI := Fin 100; Volume_Spike_Today := "No"; Signal := "Hold" |}
           info_ok (bars (rising 25) (of_Zs (repeat 7%Z 25)))).
  - vm_compute. apply elem_of_cons. by left.
  - reflexivity.
  - vm_compute. lia.
  - apply Forall_forall. intros x Hx.
    apply list_elem_of_fmap in Hx as (b & -> & Hb).
    unfold bars in Hb. apply list_elem_of_lookup in Hb as [i Hb].
    apply lookup_zip_with_Some in Hb as (cl & v & -> & Hcl & _).
    apply list_elem_of_lookup_2, list_elem_of_fmap in Hcl as (z & -> & _).
    reflexivity.
  - left. intros i Hi Hi2.
    do 25 (destruct i as [|i];
           [first [ exfalso; vm_compute in Hi; lia
                  | exfalso; vm_compute in Hi2; lia
                  | by vm_compute ]|]).
    exfalso. vm_compute in Hi2. lia.
Defined.

(* ===================================================================== *)
(** ** Rounding of the displayed columns and the filter *)
(* ===================================================================== *)


Lemma round_half_even_le (q : Q) (k : Z) :
  (q <= inject_Z k)%Q → (round_half_even q <= k)%Z.
Proof.
  intros Hq. unfold round_half_even.
  pose proof (Qfloor_le q) as Hlo.
  assert (Hf : (Qfloor q <= k)%Z).
  { rewrite <- (Qfloor_Z k). by apply Qfloor_resp_le. }
  destruct (Qcompare_spec (q - inject_Z (Qfloor q)) (1 # 2)) as [H|H|H].
  - destruct (Z.even (Qfloor q)); [done|].
    destruct (decide (Qfloor q = k)) as [Heq|Hne]; [|lia].
    rewrite Heq in H. lra.
  - done.
  - destruct (decide (Qfloor q = k)) as [Heq|Hne]; [|lia].
    rewrite Heq in H. lra.
Qed.

Lemma round_half_even_ge (q : Q) (k : Z) :
  (inject_Z k <= q)%Q → (k <= round_half_even q)%Z.
Proof.
  intros Hq. unfold round_half_even.
  assert (Hf : (k <= Qfloor q)%Z).
  { rewrite <- (Qfloor_Z k). by apply Qfloor_resp_le. }
  destruct (q - inject_Z (Qfloor q) ?= 1 # 2)%Q; [|lia|lia].
  destruct (Z.even (Qfloor q)); lia.
Qed.

(** [round2] of a finite value is the finite value
    [round_half_even (100 x) / 100]. *)
Lemma round2_finite (x : float) :
  is_finite x = true →
  is_finite (round2 x) = true ∧
  (fval (round2 x) == inject_Z (round_half_even (fval x * 100)) / 100)%Q.
Proof.
  destruct x as [|s| |q]; [done|done| |]; intros _.
  - split; [reflexivity|by vm_compute].
  - cbn [round2 fval].
    destruct (round_half_even (q * 100) =? 0)%Z eqn:E.
    + apply Z.eqb_eq in E. rewrite E.
      destruct (Qlt_bool q 0); simpl; (split; [done|]); reflexivity.
    + unfold fin. simpl. split; [done|]. apply Qred_correct.
Qed.

Lemma fmul_finite (x y : float) :
  is_finite x = true → is_finite y = true →
  is_finite (fmul x y) = true ∧ (fval (fmul x y) == fval x * fval y)%Q.
Proof.
  intros Hx Hy.
  assert (H : fmul x y =
              if Qeq_bool (fval x * fval y) 0
              then zero (xorb (fsign x) (fsign y)) else fin (fval x * fval y)).
  { by destruct x, y. }
  rewrite H. destruct (Qeq_bool (fval x * fval y) 0) eqn:E; qprop.
  - destruct (xorb _ _); simpl; (split; [done|]); by rewrite E.
  - unfold fin. simpl. split; [done|]. apply Qred_correct.
Qed.

Lemma fle_finite (x y : float) :
  is_finite x = true → is_finite y = true →
  fle x y = Qle_bool (fval x) (fval y).
Proof. by destruct x, y. Qed.




Lemma round2_le_int (x : float) (k : Z) :
  is_finite x = true → (fval x <= inject_Z k)%Q →
  (fval (round2 x) <= inject_Z k)%Q.
Proof.
  intros Hfin Hle. destruct (round2_finite x Hfin) as [_ ->].
  assert (Hz : (round_half_even (fval x * 100) <= k * 100)%Z).
  { apply round_half_even_le. rewrite inject_Z_mult.
    change (inject_Z 100) with 100%Q. lra. }
  rewrite Zle_Qle, inject_Z_mult in Hz. change (inject_Z 100) with 100%Q in Hz.
  apply Qle_shift_div_r; [lra|done].
Qed.

Lemma round2_ge_int (x : float) (k : Z) :
  is_finite x = true → (inject_Z k <= fval x)%Q →
  (inject_Z k <= fval (round2 x))%Q.
Proof.
  intros Hfin Hle. destruct (round2_finite x Hfin) as [_ ->].
  assert (Hz : (k * 100 <= round_half_even (fval x * 100))%Z).
  { apply round_half_even_ge. rewrite inject_Z_mult.
    change (inject_Z 100) with 100%Q. lra. }
  rewrite Zle_Qle, inject_Z_mult in Hz. change (inject_Z 100) with 100%Q in Hz.
  apply Qle_shift_div_l; [lra|done].
Qed.

(** X15: the filter compares the rounded columns, but with whole-number
    bounds (as the defaults 30 and 15 and the dashboard sliders give)
    rounding never drops a ticker: a row whose fetched PE is at most the
    PE bound and whose fetched ROE times 100 is at least the ROE bound is
    in [filteredTable]. *)
Theorem whole_bounds_keep_row (up : Upstream) (c : gmap string (Info * History))
    (selected_tickers plot_tickers : list string) (max_pe min_roe : Z)
    (row : Row) (info : Info) (data : History) (pe roe : float) :
  let r := run_screener up c selected_tickers plot_tickers
             (Fin (inject_Z max_pe)) (Fin (inject_Z min_roe)) in
  row ∈ fullTable r →
  fetched up c (Ticker row) = Bundle info data →
  trailingPE info = Some pe → returnOnEquity info = Some roe →
  is_finite pe = true → is_finite roe = true →
  (fval pe <= inject_Z max_pe)%Q →
  (inject_Z min_roe <= fval roe * 100)%Q →
  row ∈ filteredTable r.
Proof.
  intros r Hrow Hf Hpe Hroe Hpefin Hroefin Hle Hge. subst r.
  rewrite run_screener_filteredTable.
  apply list_elem_of_In, filter_In. split; [by apply list_elem_of_In|].
  rewrite run_screener_fullTable in Hrow.
  apply list_elem_of_omap in Hrow as (t & _ & Hrow).
  apply row_of_Ticker in Hrow as Heq. subst t. rewrite Hf in Hrow.
  apply row_of_inv in Hrow as (pe' & roe' & lr & Hpe' & Hroe' & _ & ->).
  rewrite Hpe in Hpe'. rewrite Hroe in Hroe'.
  injection Hpe' as <-. injection Hroe' as <-.
  unfold passes_filters. cbn [PE_Ratio ROE_pct make_row].
  destruct (fmul_finite roe f100 Hroefin eq_refl) as [Hmfin Hm].
  change (fval f100) with 100%Q in Hm.
  destruct (round2_finite pe Hpefin) as [Hp1 _].
  destruct (round2_finite _ Hmfin) as [Hr1 _].
  unfold fge. rewrite !fle_finite by done.
  apply andb_true_iff. split; apply Qle_bool_iff; cbn [fval].
  - by apply round2_le_int.
  - apply round2_ge_int; [done|]. by rewrite Hm.
Qed.

Lemma whole_bounds_keep_row_witness :
  let r := run_screener demo_upstream ∅ ["LONG"] []
             (Fin (inject_Z 30)) (Fin (inject_Z 15)) in
  {| Ticker := "LONG"; PE_Ratio := Fin 10; ROE_pct := Fin 20;
     RSI := Fin 100; Volume_Spike_Today := "No"; Signal := "Hold" |}
    ∈ filteredTable r.
Proof.
  apply (whole_bounds_keep_row demo_upstream ∅ ["LONG"] [] 30 15
           {| Ticker := "LONG"; PE_Ratio := Fin 10; ROE_pct := Fin 20;
              RSI := Fin 100; Volume_Spike_Today := "No"; Signal := "Hold" |}
           info_ok (bars (rising 25) (of_Zs (repeat 7%Z 25))) (Fin 10) (Fin (1 # 5))).
  - vm_compute. apply elem_of_cons. by left.
  - reflexivity.
  - reflexivity.
  - reflexivity.
  - reflexivity.
  - reflexivity.
  - by vm_compute.
  - by vm_compute.
Defined.

(* ===================================================================== *)
(** ** Text operations *)
(* ===================================================================== *)

Lemma is_space_upper_char (c : Ascii.ascii) : is_space (upper_char c) = is_space c.
Proof. destruct c as [[] [] [] [] [] [] [] []]; reflexivity. Qed.

Lemma upper_char_idemp (c : Ascii.ascii) : upper_char (upper_char c) = upper_char c.
Proof. destruct c as [[] [] [] [] [] [] [] []]; reflexivity. Qed.

Lemma upper_char_comma (c : Ascii.ascii) : upper_char c = comma → c = comma.
Proof. destruct c as [[] [] [] [] [] [] [] []]; vm_compute; congruence. Qed.

Lemma comma_not_space : is_space comma = false.
Proof. reflexivity. Qed.

Lemma lstrip_head (s : list Ascii.ascii) :
  lstrip s = [] ∨ ∃ c r, lstrip s = c :: r ∧ is_space c = false.
Proof.
  induction s as [|c s IH]; [by left|]. simpl.
  destruct (is_space c) eqn:E; [done|]. right. by exists c, s.
Qed.

Lemma lstrip_no_space (c : Ascii.ascii) (r : list Ascii.ascii) :
  is_space c = false → lstrip (c :: r) = c :: r.
Proof. intros H. simpl. by rewrite H. Qed.

Lemma rstrip_head (c : Ascii.ascii) (r : list Ascii.ascii) :
  is_space c = false → ∃ r', rstrip (c :: r) = c :: r'.
Proof.
  intros H. simpl. destruct (rstrip r) as [|c' r']; [|by eexists].
  rewrite H. by eexists.
Qed.

Lemma rstrip_idemp (s : list Ascii.ascii) : rstrip (rstrip s) = rstrip s.
Proof.
  induction s as [|c s IH]; [done|]. simpl.
  destruct (rstrip s) as [|c' r'] eqn:E.
  - destruct (is_space c) eqn:Ec; [done|]. simpl. by rewrite Ec.
  - change (rstrip (c :: c' :: r')) with
      (match rstrip (c' :: r') with
       | [] => if is_space c then [] else [c]
       | r => c :: r
       end).
    by rewrite IH.
Qed.

Lemma strip_idemp (s : list Ascii.ascii) : strip (strip s) = strip s.
Proof.
  unfold strip. destruct (lstrip_head s) as [-> | (c & r & -> & Hc)]; [done|].
  destruct (rstrip_head c r Hc) as [r' Hr]. rewrite Hr.
  rewrite lstrip_no_space by done. by rewrite <- Hr, rstrip_idemp.
Qed.

Lemma strip_head (s : list Ascii.ascii) (c : Ascii.ascii) (r : list Ascii.ascii) :
  strip s = c :: r → is_space c = false.
Proof.
  unfold strip. destruct (lstrip_head s) as [-> | (c' & r' & -> & Hc)]; [done|].
  destruct (rstrip_head c' r' Hc) as [r'' ->]. by intros [= <- _].
Qed.

Lemma lstrip_upper (s : list Ascii.ascii) : lstrip (upper s) = upper (lstrip s).
Proof.
  induction s as [|c s IH]; [done|]. unfold upper in *. csimpl.
  rewrite is_space_upper_char. by destruct (is_space c).
Qed.

Lemma rstrip_upper (s : list Ascii.ascii) : rstrip (upper s) = upper (rstrip s).
Proof.
  induction s as [|c s IH]; [done|]. unfold upper in *. csimpl.
  rewrite IH, is_space_upper_char.
  destruct (rstrip s); [by destruct (is_space c)|done].
Qed.

Lemma strip_upper (s : list Ascii.ascii) : strip (upper s) = upper (strip s).
Proof. unfold strip. by rewrite lstrip_upper, rstrip_upper. Qed.

Lemma upper_idemp (s : list Ascii.ascii) : upper (upper s) = upper s.
Proof.
  unfold upper. rewrite <- list_fmap_compose. apply list_fmap_ext.
  intros i c _. apply upper_char_idemp.
Qed.

Lemma lstrip_subseteq (s : list Ascii.ascii) : lstrip s ⊆ s.
Proof.
  induction s as [|c s IH]; [done|]. simpl.
  destruct (is_space c); [|done]. intros x Hx. apply elem_of_cons. right. by apply IH.
Qed.

Lemma rstrip_subseteq (s : list Ascii.ascii) : rstrip s ⊆ s.
Proof.
  induction s as [|c s IH]; [done|]. simpl.
  destruct (rstrip s) as [|c' r'] eqn:E.
  - destruct (is_space c); intros x Hx; [by apply elem_of_nil in Hx|].
    apply elem_of_cons in Hx as [->|?%elem_of_nil]; [|done].
    apply elem_of_cons. by left.
  - intros x [->|Hx]%elem_of_cons; apply elem_of_cons; [by left|right; by apply IH].
Qed.

Lemma strip_subseteq (s : list Ascii.ascii) : strip s ⊆ s.
Proof.
  unfold strip. intros x Hx. by apply lstrip_subseteq, rstrip_subseteq.
Qed.

Lemma upper_no_comma (s : list Ascii.ascii) : comma ∉ s → comma ∉ upper s.
Proof.
  intros Hs (c & Hc & Hin)%list_elem_of_fmap. apply Hs.
  symmetry in Hc. apply upper_char_comma in Hc. by subst.
Qed.

Lemma split_on_nonempty (sep : Ascii.ascii) (s : list Ascii.ascii) :
  split_on sep s ≠ [].
Proof.
  induction s as [|c s IH]; [done|]. simpl.
  destruct (Ascii.eqb c sep); [done|]. by destruct (split_on sep s).
Qed.

Lemma split_on_no_sep (sep : Ascii.ascii) (s : list Ascii.ascii) :
  Forall (λ piece, sep ∉ piece) (split_on sep s).
Proof.
  induction s as [|c s IH]; simpl.
  - constructor; [by intros ?%elem_of_nil|constructor].
  - destruct (Ascii.eqb c sep) eqn:E.
    + constructor; [by intros ?%elem_of_nil|done].
    + apply Ascii.eqb_neq in E.
      destruct (split_on sep s) as [|piece pieces].
      * constructor; [|constructor].
        intros [?|?%elem_of_nil]%elem_of_cons; [congruence|done].
      * apply Forall_cons in IH as [Hp Hps]. constructor; [|done].
        intros [?|?]%elem_of_cons; [congruence|done].
Qed.

Lemma split_on_no_sep_id (sep : Ascii.ascii) (p : list Ascii.ascii) :
  sep ∉ p → split_on sep p = [p].
Proof.
  induction p as [|c p IH]; [done|]. intros Hc. simpl.
  destruct (Ascii.eqb c sep) eqn:E.
  - apply Ascii.eqb_eq in E. subst. exfalso. apply Hc, elem_of_cons. by left.
  - rewrite IH; [done|]. intros Hin. apply Hc, elem_of_cons. by right.
Qed.

Lemma split_on_app_sep (sep : Ascii.ascii) (p rest : list Ascii.ascii) :
  sep ∉ p → split_on sep (p ++ sep :: rest) = p :: split_on sep rest.
Proof.
  induction p as [|c p IH]; intros Hc.
  - simpl. by rewrite Ascii.eqb_refl.
  - simpl. destruct (Ascii.eqb c sep) eqn:E.
    + apply Ascii.eqb_eq in E. subst. exfalso. apply Hc, elem_of_cons. by left.
    + rewrite IH; [done|]. intros Hin. apply Hc, elem_of_cons. by right.
Qed.

(** Splitting undoes joining, for pieces that do not contain the
    separator. *)
Lemma split_on_join (sep : Ascii.ascii) (pieces : list (list Ascii.ascii)) :
  pieces ≠ [] → Forall (λ p, sep ∉ p) pieces →
  split_on sep (join_with sep pieces) = pieces.
Proof.
  induction pieces as [|p rest IH]; [done|]. intros _ Hall.
  apply Forall_cons in Hall as [Hp Hrest].
  destruct rest as [|p' rest'].
  - simpl. by apply split_on_no_sep_id.
  - change (join_with sep (p :: p' :: rest'))
      with (p ++ sep :: join_with sep (p' :: rest')).
    rewrite split_on_app_sep by done. f_equal. by apply IH.
Qed.

(* ===================================================================== *)
(** ** Command-line plot names *)
(* ===================================================================== *)

Lemma parse_plot_ok (plot : list Ascii.ascii) : Forall plot_name_ok (parse_plot plot).
Proof.
  apply Forall_forall. intros t (piece & Hpiece & Ht)%list_elem_of_omap.
  destruct (strip piece) as [|c r] eqn:Hs; [done|].
  assert (t = upper (strip piece)) as -> by (rewrite Hs; congruence).
  pose proof (split_on_no_sep comma plot) as Hno.
  rewrite Forall_forall in Hno. specialize (Hno piece Hpiece).
  unfold plot_name_ok. split_and!.
  - rewrite Hs. done.
  - apply upper_no_comma. intros Hin. by apply Hno, strip_subseteq.
  - by rewrite strip_upper, strip_idemp.
  - apply upper_idemp.
Qed.

Lemma parse_plot_names_id (names : list (list Ascii.ascii)) :
  Forall plot_name_ok names →
  omap (λ t, match strip t with
             | [] => None
             | _ :: _ => Some (upper (strip t))
             end) names = names.
Proof.
  induction 1 as [|t names (Hne & _ & Hstrip & Hupper) _ IH]; [done|].
  csimpl. rewrite Hstrip. destruct t as [|c r]; [done|].
  rewrite Hupper. csimpl. by rewrite IH.
Qed.

Lemma parse_plot_join (names : list (list Ascii.ascii)) :
  Forall plot_name_ok names → parse_plot (join_with comma names) = names.
Proof.
  intros Hok. unfold parse_plot. destruct names as [|t names]; [done|].
  rewrite split_on_join; [by apply parse_plot_names_id|done|].
  eapply Forall_impl; [exact Hok|]. by intros p (_ & ? & _).
Qed.

(** X16: every plot name produced from the [--plot] argument is
    non-empty, contains no comma, has no blank at either end and no
    lower-case letter; an empty argument, or one made of commas and
    blanks only, gives no name. *)
Theorem parse_plot_names (plot : list Ascii.ascii) :
  ascii7_text plot →
  Forall plot_name_ok (parse_plot plot) ∧
  (Forall (λ c, c = comma ∨ is_space c = true) plot → parse_plot plot = []).
Proof.
  intros _. split; [apply parse_plot_ok|].
  intros Hblank. unfold parse_plot.
  assert (Hpieces : Forall (λ p, strip p = []) (split_on comma plot)).
  { induction plot as [|c plot IH]; [by repeat constructor|].
    apply Forall_cons in Hblank as [Hc Hblank]. specialize (IH Hblank). simpl.
    destruct (Ascii.eqb c comma) eqn:E; [by constructor|].
    destruct Hc as [->|Hc]; [by rewrite Ascii.eqb_refl in E|].
    pose proof (split_on_nonempty comma plot) as Hne.
    destruct (split_on comma plot) as [|p ps]; [done|].
    apply Forall_cons in IH as [Hp Hps]. constructor; [|done].
    unfold strip in *. simpl. by rewrite Hc. }
  induction Hpieces as [|p ps Hp _ IH]; [done|]. csimpl. by rewrite Hp.
Qed.

Lemma parse_plot_names_witness :
  Forall plot_name_ok
    (parse_plot (String.list_ascii_of_string " reliance.ns, tcs.ns ,, ,x")) ∧
  (Forall (λ c, c = comma ∨ is_space c = true)
     (String.list_ascii_of_string " reliance.ns, tcs.ns ,, ,x") →
   parse_plot (String.list_ascii_of_string " reliance.ns, tcs.ns ,, ,x") = []).
Proof.
  apply (parse_plot_names (String.list_ascii_of_string " reliance.ns, tcs.ns ,, ,x")).
  unfold ascii7_text. vm_compute. repeat constructor.
Defined.

(** X17: parsing is a left inverse of joining: a list of plot names in
    the parser's normal form, written comma-separated, parses back to the
    same list; so parsing the comma-joined result of a parse returns that
    result. *)
Theorem parse_plot_round_trip (names : list (list Ascii.ascii)) :
  Forall ascii7_text names →
  Forall plot_name_ok names →
  parse_plot (join_with comma names) = names ∧
  parse_plot (join_with comma (parse_plot (join_with comma names))) =
    parse_plot (join_with comma names).
Proof.
  intros _ Hok. rewrite (parse_plot_join names Hok). split; [done|].
  apply (parse_plot_join names Hok).
Qed.

Lemma parse_plot_round_trip_witness :
  let names := [String.list_ascii_of_string "RELIANCE.NS";
                String.list_ascii_of_string "TCS.NS"] in
  parse_plot (join_with comma names) = names ∧
  parse_plot (join_with comma (parse_plot (join_with comma names))) =
    parse_plot (join_with comma names).
Proof.
  apply (parse_plot_round_trip [String.list_ascii_of_string "RELIANCE.NS";
                                String.list_ascii_of_string "TCS.NS"]).
  - unfold ascii7_text. vm_compute. repeat constructor.
  - repeat constructor; try (by vm_compute); vm_compute;
      intros H; repeat (apply elem_of_cons in H as [H|H]; [discriminate|]);
      by apply elem_of_nil in H.
Defined.

(* ===================================================================== *)
(** ** The ticker universe *)
(* ===================================================================== *)

(** X18: the ticker built from an NSE symbol is a base name followed by
    ".NS", where the base has no blank at either end and no lower-case
    letter; decorating is insensitive to case and surrounding blanks:
    the base decorates to the same ticker as the symbol. *)
Theorem nse_ticker_normal (symbol : list Ascii.ascii) :
  ascii7_text symbol →
  ∃ base,
    nse_ticker symbol = base ++ String.list_ascii_of_string ".NS" ∧
    strip base = base ∧ upper base = base ∧
    nse_ticker base = nse_ticker symbol.
Proof.
  intros _. exists (upper (strip symbol)). unfold nse_ticker.
  split_and!.
  - done.
  - by rewrite strip_upper, strip_idemp.
  - apply upper_idemp.
  - by rewrite strip_upper, strip_idemp, upper_idemp.
Qed.

Lemma nse_ticker_normal_witness :
  ∃ base,
    nse_ticker (String.list_ascii_of_string " infy ") =
      base ++ String.list_ascii_of_string ".NS" ∧
    strip base = base ∧ upper base = base ∧
    nse_ticker base = nse_ticker (String.list_ascii_of_string " infy ").
Proof.
  apply (nse_ticker_normal (String.list_ascii_of_string " infy ")).
  unfold ascii7_text. vm_compute. repeat constructor.
Defined.

Lemma fetch_nifty50_cached_ok (read_csv : string + list (list Ascii.ascii)) (now : nat)
    (cached : option PyValue) :
  nifty_cache_ok cached →
  nifty_cache_ok (fetch_nifty50_cached read_csv now cached).2 ∧
  match (fetch_nifty50_cached read_csv now cached).1 with
  | inl _ => cached = None ∧ ∃ e, read_csv = inl e
  | inr v => ∃ symbols t, v = PyTuple (PyFrame (nse_ticker <$> symbols)) (PyTime t)
  end.
Proof.
  intros [-> | (symbols & t & ->)]; simpl.
  - destruct read_csv as [e|symbols]; simpl.
    + split; [by left|]. split; [done|by exists e].
    + split; [right; by exists symbols, now|by exists symbols, now].
  - split; [right; by exists symbols, t|by exists symbols, t].
Qed.

(** X19: [refresh_nifty50_csv] never reports success and never writes
    tickers.csv.  When the fetch raises, the exception is caught; when it
    succeeds, it returns a pair, and calling [to_csv] on the pair raises,
    which is caught as well.  (The cache is left in a good state.) *)
Theorem refresh_nifty50_csv_never_succeeds
    (read_csv : string + list (list Ascii.ascii)) (now : nat)
    (cached : option PyValue) (tickers_csv : option (list (list Ascii.ascii))) :
  nifty_cache_ok cached →
  let r := refresh_nifty50_csv read_csv now cached tickers_csv in
  r.1.1.1 = false ∧ r.2 = tickers_csv ∧ nifty_cache_ok r.1.2.
Proof.
  intros Hok r. subst r. unfold refresh_nifty50_csv.
  destruct (fetch_nifty50_cached_ok read_csv now cached Hok) as [Hc Hv].
  destruct (fetch_nifty50_cached read_csv now cached) as [[e|v] cached']; simpl in *.
  - done.
  - destruct Hv as (symbols & t & ->). done.
Qed.

Lemma refresh_nifty50_csv_never_succeeds_witness :
  let r := refresh_nifty50_csv (inr [String.list_ascii_of_string "tcs"]) 5 None None in
  r.1.1.1 = false ∧ r.2 = None ∧ nifty_cache_ok r.1.2.
Proof.
  apply (refresh_nifty50_csv_never_succeeds
           (inr [String.list_ascii_of_string "tcs"]) 5 None None).
  by left.
Defined.

(** X20: the dashboard's refresh button succeeds exactly when the fetch
    returns (from the cache, or from a successful download), and then
    tickers.csv holds one decorated ticker per symbol of the fetched
    column, in order; on a fresh download these are the symbols just
    read.  When the download fails the file is left as it was. *)
Theorem gui_refresh_writes_tickers
    (read_csv : string + list (list Ascii.ascii)) (now : nat)
    (cached : option PyValue) (tickers_csv : option (list (list Ascii.ascii))) :
  nifty_cache_ok cached →
  let r := gui_refresh read_csv now cached tickers_csv in
  (r.1.1 = true ↔ cached ≠ None ∨ ∃ symbols, read_csv = inr symbols) ∧
  (r.1.1 = true → ∃ symbols, r.2 = Some (nse_ticker <$> symbols)) ∧
  (r.1.1 = false → r.2 = tickers_csv) ∧
  (∀ symbols, cached = None → read_csv = inr symbols →
     r.2 = Some (nse_ticker <$> symbols)) ∧
  nifty_cache_ok r.1.2.
Proof.
  intros Hok r. subst r. unfold gui_refresh.
  destruct Hok as [-> | (symbols & t & ->)]; simpl.
  - destruct read_csv as [e|symbols]; simpl.
    + split_and!; try done.
      * split; [done|]. intros [?|[? ?]]; done.
      * by left.
    + split_and!; try done.
      * split; [|done]. intros _. right. by exists symbols.
      * intros _. by exists symbols.
      * intros symbols' _ [= <-]. done.
      * right. by exists symbols, now.
  - split_and!; try done.
    + split; [|done]. intros _. by left.
    + intros _. by exists symbols.
    + right. by exists symbols, t.
Qed.

Lemma gui_refresh_writes_tickers_witness :
  let r := gui_refresh (inr [String.list_ascii_of_string "tcs"]) 5 None None in
  (r.1.1 = true ↔
   None ≠ (@None PyValue) ∨
   ∃ symbols, inr [String.list_ascii_of_string "tcs"] = (inr symbols : string + _)) ∧
  (r.1.1 = true → ∃ symbols, r.2 = Some (nse_ticker <$> symbols)) ∧
  (r.1.1 = false → r.2 = None) ∧
  (∀ symbols, (@None PyValue) = None →
     inr [String.list_ascii_of_string "tcs"] = (inr symbols : string + _) →
     r.2 = Some (nse_ticker <$> symbols)) ∧
  nifty_cache_ok r.1.2.
Proof.
  apply (gui_refresh_writes_tickers (inr [String.list_ascii_of_string "tcs"]) 5 None None).
  by left.
Defined.
